(** * Scoring and ranking of movies: a shallow embedding of [src/util.ts]

    The program ranks movies by a preference-weighted score.  Its core is
    three pure functions over immutable records ([calculateScore],
    [rankMovies], and the helpers [getRottenTomatoesScore] and
    [runtimeToMinutes]); the network code around them is not modelled.

    Data is modelled as the program has it:
    - a JavaScript [number] is an IEEE 754 binary64 value, Rocq's primitive
      [float]; its operations are the kernel's, specified by the Standard
      Library through [spec_float];
    - a JavaScript string is a sequence of UTF-16 code units; here a
      [string] whose characters are the code units below 256, so that
      [toLowerCase], white space and digits are exactly the engine's on that
      range;
    - an optional field ([afterYear?: ...]) is an [option];
    - an array is a [list]. *)

From Stdlib Require Import ZArith Lia Bool List Ascii String.
From Stdlib Require Import Floats.
From Stdlib Require Import Permutation Sorted.
Import ListNotations.

Local Open Scope string_scope.
Local Open Scope list_scope.

(** ** JavaScript numbers *)

Module Number.

(** [ToNumber] of an integer: the nearest double, ties to even. *)
Definition of_Z (z : Z) : float :=
  SF2Prim (binary_normalize prec emax z 0 false).

(** [x > 0], [x >= y] and friends are the IEEE comparisons: every
    comparison with [NaN] is false. *)
Definition ge (x y : float) : bool := PrimFloat.leb y x.
Definition lt (x y : float) : bool := PrimFloat.ltb x y.
Definition gt (x y : float) : bool := PrimFloat.ltb y x.

(** [ToBoolean] of a number: [+0], [-0] and [NaN] are falsy. *)
Definition truthy (x : float) : bool :=
  negb (PrimFloat.is_nan x || PrimFloat.is_zero x).

(** [x || y] on numbers. *)
Definition or_else (x y : float) : float := if truthy x then x else y.

(** [ToNumber] of a value that may be [undefined]. *)
Definition of_undefined (x : option float) : float :=
  match x with
  | Some v => v
  | None => nan
  end.

End Number.

(** ** JavaScript strings *)

Module Str.

Definition code (c : ascii) : N := N_of_ascii c.

Definition is_upper_ascii (c : ascii) : bool :=
  (65 <=? code c)%N && (code c <=? 90)%N.

(** The code units below 256 that [toLowerCase] changes are [A]-[Z] and
    the Latin-1 capitals U+00C0-U+00DE without the multiplication sign
    U+00D7; each moves up by 32. *)
Definition is_upper_latin1 (c : ascii) : bool :=
  (192 <=? code c)%N && (code c <=? 222)%N && negb (code c =? 215)%N.

Definition lower_char (c : ascii) : ascii :=
  if is_upper_ascii c || is_upper_latin1 c
  then ascii_of_N (code c + 32)
  else c.

(** [s.toLowerCase()] *)
Fixpoint toLowerCase (s : string) : string :=
  match s with
  | EmptyString => EmptyString
  | String c s' => String (lower_char c) (toLowerCase s')
  end.

(** [t] is a prefix of [s] *)
Fixpoint startsWith (s t : string) {struct t} : bool :=
  match t, s with
  | EmptyString, _ => true
  | String _ _, EmptyString => false
  | String d t', String c s' => Ascii.eqb c d && startsWith s' t'
  end.

(** [s.includes(t)]: [t] occurs in [s] as a substring. *)
Fixpoint includes (s t : string) : bool :=
  startsWith s t ||
  match s with
  | EmptyString => false
  | String _ s' => includes s' t
  end.

(** [s.slice(n)] *)
Fixpoint drop (n : nat) (s : string) : string :=
  match n, s with
  | O, _ => s
  | S _, EmptyString => EmptyString
  | S n', String _ s' => drop n' s'
  end.

(** [s.replace(pat, rep)] for a string pattern: the first occurrence
    only.  The [$]-patterns of the replacement text are not modelled; the
    program's only replacement is the empty string. *)
Fixpoint replace (pat rep s : string) : string :=
  if startsWith s pat then rep ++ drop (String.length pat) s
  else match s with
       | EmptyString => EmptyString
       | String c s' => String c (replace pat rep s')
       end.

(** [s.split(sep)] for a non-empty string separator.  [cur] is the segment
    being read, [skip] the number of code units of a separator occurrence
    still to pass over. *)
Fixpoint split_from (sep : string) (skip : nat) (cur : string) (s : string)
  : list string :=
  match s with
  | EmptyString => [cur]
  | String c s' =>
      match skip with
      | S k => split_from sep k cur s'
      | O =>
          if startsWith s sep
          then cur :: split_from sep (String.length sep - 1) EmptyString s'
          else split_from sep O (cur ++ String c EmptyString) s'
      end
  end.

(** With the empty separator [split] yields the code units one by one. *)
Fixpoint chars (s : string) : list string :=
  match s with
  | EmptyString => []
  | String c s' => String c EmptyString :: chars s'
  end.

Definition split (s sep : string) : list string :=
  match sep with
  | EmptyString => chars s
  | String _ _ => split_from sep O EmptyString s
  end.

(** The white space and line terminators below 256 that [parseInt] skips:
    TAB, LF, VT, FF, CR, SP and NBSP. *)
Definition is_space (c : ascii) : bool :=
  ((9 <=? code c)%N && (code c <=? 13)%N)
  || (code c =? 32)%N || (code c =? 160)%N.

Fixpoint trimStart (s : string) : string :=
  match s with
  | EmptyString => EmptyString
  | String c s' => if is_space c then trimStart s' else s
  end.

(** The value of a code unit as a digit, for radixes up to 36. *)
Definition digit_value (c : ascii) : option Z :=
  let n := Z.of_N (code c) in
  if (48 <=? n)%Z && (n <=? 57)%Z then Some (n - 48)%Z
  else if (97 <=? n)%Z && (n <=? 122)%Z then Some (n - 87)%Z
  else if (65 <=? n)%Z && (n <=? 90)%Z then Some (n - 55)%Z
  else None.

Definition radix_digit (R : Z) (c : ascii) : option Z :=
  match digit_value c with
  | Some d => if (d <? R)%Z then Some d else None
  | None => None
  end.

(** The longest prefix of radix-[R] digits, read as an integer; [None]
    when that prefix is empty. *)
Fixpoint digits_from (R : Z) (acc : option Z) (s : string) : option Z :=
  match s with
  | EmptyString => acc
  | String c s' =>
      match radix_digit R c with
      | Some d =>
          digits_from R (Some (match acc with
                               | Some a => a * R + d
                               | None => d
                               end)%Z) s'
      | None => acc
      end
  end.

(** The lexicographic order of [<=] on strings, by code unit. *)
Definition le (s t : string) : bool := String.leb s t.

End Str.

(** ** [parseInt(string, radix)]

    [radix] is [None] for a call with one argument.  The steps are those of
    the language definition: skip white space, read a sign, settle the
    radix (a [0x] prefix selects 16 when no radix or radix 16 is given),
    read the longest prefix of digits, and give [NaN] when it is empty.
    A run of digits too long for a double is rounded to the nearest one. *)
Definition parseInt (s : string) (radix : option Z) : float :=
  let S0 := Str.trimStart s in
  let negative := Str.startsWith S0 "-" in
  let S1 := if negative || Str.startsWith S0 "+" then Str.drop 1 S0 else S0 in
  let R0 := match radix with Some r => r | None => 0%Z end in
  if negb (R0 =? 0)%Z && ((R0 <? 2)%Z || (36 <? R0)%Z) then nan
  else
    let stripPrefix := (R0 =? 0)%Z || (R0 =? 16)%Z in
    let hex := stripPrefix && (Str.startsWith S1 "0x" || Str.startsWith S1 "0X") in
    let R := if hex then 16%Z else if (R0 =? 0)%Z then 10%Z else R0 in
    let S2 := if hex then Str.drop 2 S1 else S1 in
    match Str.digits_from R None S2 with
    | None => nan
    | Some 0%Z => if negative then neg_zero else zero
    | Some n => Number.of_Z (if negative then - n else n)
    end.

(** ** The data model ([types.ts]) *)

(** [IPreference<T>]: a target value and a weight. *)
Module Pref.
Record t (T : Type) : Type := make { value : T; weight : float }.
Arguments make {T} _ _.
Arguments value {T} _.
Arguments weight {T} _.
End Pref.

(** An entry of [IMovie.ratings]. *)
Module Rating.
Record t : Type := make { source : string; value : string }.
End Rating.

(** [IPerson.preferences]: every criterion is optional. *)
Record Preferences : Type := {
  afterYear : option (Pref.t float);
  beforeYear : option (Pref.t float);
  maximumAgeRating : option (Pref.t string);
  shorterThan : option (Pref.t string);
  favoriteGenre : option (Pref.t string);
  leastFavoriteDirector : option (Pref.t string);
  favoriteActors : option (Pref.t (list string));
  favoritePlotElements : option (Pref.t (list string));
  minimumRottenTomatoesScore : option (Pref.t float)
}.

Record IPerson : Type := {
  name : string;
  preferences : Preferences
}.

Record IMovie : Type := {
  imdbID : string;
  title : string;
  year : string;
  genre : string;
  director : string;
  actors : string;
  plot : string;
  rated : string;
  runtime : string;
  ratings : list Rating.t
}.

(** An element of the array [rankMovies] returns. *)
Record Ranked : Type := { id : string; score : float }.

(** The preference set with no criterion. *)
Definition noPreferences : Preferences :=
  {| afterYear := None; beforeYear := None; maximumAgeRating := None;
     shorterThan := None; favoriteGenre := None;
     leastFavoriteDirector := None; favoriteActors := None;
     favoritePlotElements := None; minimumRottenTomatoesScore := None |}.

(** ** The helpers of [util.ts] *)

(** [runtimeToMinutes]: the parts between the [h] marks are parsed, a part
    that is [NaN] or zero becomes [0], and the first two parts are bound to
    [hours] and [minutes].  When there is no second part [minutes] is
    [undefined], and [hours * 60 + undefined] is [NaN]. *)
Definition runtimeToMinutes (runtime : string) : float :=
  let parts :=
    map (fun part => Number.or_else (parseInt part (Some 10%Z)) 0%float)
        (Str.split runtime "h") in
  let hours := nth_error parts 0 in
  let minutes := nth_error parts 1 in
  (Number.of_undefined hours * 60 + Number.of_undefined minutes)%float.

(** [getRottenTomatoesScore]: the first rating whose source is
    ["Rotten Tomatoes"], with its first [%] removed, parsed in base 10;
    [0] when there is no such rating. *)
Definition getRottenTomatoesScore (movie : IMovie) : float :=
  match find (fun r => String.eqb (Rating.source r) "Rotten Tomatoes")
             (ratings movie) with
  | Some rating => parseInt (Str.replace "%" "" (Rating.value rating)) (Some 10%Z)
  | None => 0%float
  end.

(** [array.includes(x)] on an array of strings *)
Definition includes (l : list string) (x : string) : bool :=
  existsb (String.eqb x) l.

(** [array.length] as a number *)
Definition length_number {A : Type} (l : list A) : float :=
  Number.of_Z (Z.of_nat (List.length l)).

(** ** [calculateScore]

    The body of the loop over [people] is a sequence of nine guarded
    updates of [score], one per criterion, in this order.  Each is written
    here as a function from the score before it to the score after it. *)

Section Criteria.

Variable movie : IMovie.
Variable prefs : Preferences.

Local Open Scope float_scope.

Definition scoreAfterYear (score : float) : float :=
  match afterYear prefs with
  | Some p =>
      if Number.ge (parseInt (year movie) None) (Pref.value p)
      then score + Pref.weight p else score
  | None => score
  end.

Definition scoreBeforeYear (score : float) : float :=
  match beforeYear prefs with
  | Some p =>
      if Number.lt (parseInt (year movie) None) (Pref.value p)
      then score + Pref.weight p else score
  | None => score
  end.

Definition scoreMaximumAgeRating (score : float) : float :=
  match maximumAgeRating prefs with
  | Some p =>
      if Str.le (rated movie) (Pref.value p)
      then score + Pref.weight p else score
  | None => score
  end.

Definition scoreShorterThan (score : float) : float :=
  match shorterThan prefs with
  | Some p =>
      if Number.lt (runtimeToMinutes (runtime movie))
                   (runtimeToMinutes (Pref.value p))
      then score + Pref.weight p else score
  | None => score
  end.

Definition scoreFavoriteGenre (score : float) : float :=
  match favoriteGenre prefs with
  | Some p =>
      if Str.includes (Str.toLowerCase (genre movie)) (Pref.value p)
      then score + Pref.weight p else score
  | None => score
  end.

Definition scoreLeastFavoriteDirector (score : float) : float :=
  match leastFavoriteDirector prefs with
  | Some p =>
      if String.eqb (director movie) (Pref.value p)
      then score - Pref.weight p else score
  | None => score
  end.

(** The cast entries that are among the favourite actors. *)
Definition matchingActors (favorite : list string) : list string :=
  filter (fun actor => includes favorite actor)
         (Str.split (actors movie) ", ").

Definition scoreFavoriteActors (score : float) : float :=
  match favoriteActors prefs with
  | Some p =>
      score + Pref.weight p / length_number (matchingActors (Pref.value p))
  | None => score
  end.

(** The plot elements that occur in the plot, both in lower case. *)
Definition matchingElements (plotElements : list string) : list string :=
  filter (fun element =>
            Str.includes (Str.toLowerCase (plot movie))
                         (Str.toLowerCase element))
         plotElements.

Definition scoreFavoritePlotElements (score : float) : float :=
  match favoritePlotElements prefs with
  | Some p =>
      score + length_number (matchingElements (Pref.value p)) * Pref.weight p
  | None => score
  end.

(** [rtScore !== null] holds of every number, so the guard is the
    presence of the criterion and the comparison. *)
Definition scoreMinimumRottenTomatoesScore (score : float) : float :=
  let rtScore := getRottenTomatoesScore movie in
  match minimumRottenTomatoesScore prefs with
  | Some p =>
      if Number.ge rtScore (Pref.value p)
      then score + Pref.weight p else score
  | None => score
  end.

(** One iteration of the loop. *)
Definition scorePreferences (score : float) : float :=
  let score := scoreAfterYear score in
  let score := scoreBeforeYear score in
  let score := scoreMaximumAgeRating score in
  let score := scoreShorterThan score in
  let score := scoreFavoriteGenre score in
  let score := scoreLeastFavoriteDirector score in
  let score := scoreFavoriteActors score in
  let score := scoreFavoritePlotElements score in
  scoreMinimumRottenTomatoesScore score.

End Criteria.

Definition scorePerson (movie : IMovie) (score : float) (person : IPerson)
  : float :=
  scorePreferences movie (preferences person) score.

Definition calculateScore (movie : IMovie) (people : list IPerson) : float :=
  fold_left (scorePerson movie) people 0%float.

(** ** [rankMovies]

    [Array.prototype.sort] with a comparison function: the language fixes
    the result only when the function is a consistent order, and asks for a
    stable sort.  It is modelled by the stable insertion sort; a comparison
    that is [NaN] counts as [0], and only a result greater than zero moves
    the first argument behind the second.

    The comparison function of [rankMovies] is a consistent order exactly
    when no score is [NaN].  With a [NaN] score the language leaves the
    order to the implementation, and an engine may return another
    rearrangement than this model does: what is stated below on the order
    of a ranking assumes that no score is [NaN], and what is stated for
    every roster holds of every rearrangement. *)

Section Sort.

Context {A : Type}.
Variable comparefn : A -> A -> float.

Fixpoint insert (a : A) (l : list A) : list A :=
  match l with
  | [] => [a]
  | b :: l' =>
      if Number.gt (comparefn a b) 0%float
      then b :: insert a l'
      else a :: b :: l'
  end.

Definition sort (l : list A) : list A := fold_right insert [] l.

End Sort.

Definition rankMovies (movies : list IMovie) (people : list IPerson)
  : list Ranked :=
  sort (fun a b => (score b - score a)%float)
       (map (fun movie => {| id := imdbID movie;
                             score := calculateScore movie people |})
            movies).


(** * Notions the statements use *)

(** The lexicographic order on strings by code unit, as a relation. *)
Inductive lex_le : string -> string -> Prop :=
| lex_le_empty (t : string) : lex_le EmptyString t
| lex_le_less (c d : ascii) (s t : string) :
    (Str.code c < Str.code d)%N -> lex_le (String c s) (String d t)
| lex_le_same (c : ascii) (s t : string) :
    lex_le s t -> lex_le (String c s) (String c t).

(** [t] occurs in [s]. *)
Definition substring (t s : string) : Prop :=
  exists pre post : string, s = (pre ++ t ++ post)%string.

(** [t] has a letter among [A]-[Z]. *)
Fixpoint has_upper_ascii (t : string) : bool :=
  match t with
  | EmptyString => false
  | String c t' => Str.is_upper_ascii c || has_upper_ascii t'
  end.

Definition is_decimal_digit (c : ascii) : bool :=
  (48 <=? Str.code c)%N && (Str.code c <=? 57)%N.

Definition is_sign (c : ascii) : bool :=
  Ascii.eqb c "-" || Ascii.eqb c "+".

(** [s] begins with a numeral: after white space and at most one sign
    comes a decimal digit. *)
Definition starts_with_numeral (s : string) : bool :=
  match Str.trimStart s with
  | EmptyString => false
  | String c rest =>
      if is_sign c
      then match rest with
           | EmptyString => false
           | String d _ => is_decimal_digit d
           end
      else is_decimal_digit c
  end.

(** The float [r] is an infinity or a finite non-zero number of sign [sx]
    ([true] for negative). *)
Definition has_sign (sx : bool) (r : spec_float) : Prop :=
  match r with
  | S754_finite s _ _ => s = sx
  | S754_infinity s => s = sx
  | _ => False
  end.

(** The element of the ranking for one movie. *)
Definition scored (people : list IPerson) (movie : IMovie) : Ranked :=
  {| id := imdbID movie; score := calculateScore movie people |}.

(** A ranking in descending order of score: each element's score is
    [>=] the next one's. *)
Definition descending (l : list Ranked) : Prop :=
  Sorted (fun a b => Number.ge (score a) (score b) = true) l.

(** The movie has no rating whose source is ["Rotten Tomatoes"]. *)
Definition noRottenTomatoes (movie : IMovie) : Prop :=
  forall r, In r (ratings movie) -> Rating.source r <> "Rotten Tomatoes".

(** The amounts one voter adds to the score of a movie, in the order in
    which the loop body adds them. *)
Definition contributions (movie : IMovie) (person : IPerson) : list float :=
  let prefs := preferences person in
  let add_if (b : bool) (w : float) := if b then [w] else [] in
  match afterYear prefs with
  | Some p => add_if (Number.ge (parseInt (year movie) None) (Pref.value p))
                     (Pref.weight p)
  | None => []
  end ++
  match beforeYear prefs with
  | Some p => add_if (Number.lt (parseInt (year movie) None) (Pref.value p))
                     (Pref.weight p)
  | None => []
  end ++
  match maximumAgeRating prefs with
  | Some p => add_if (Str.le (rated movie) (Pref.value p)) (Pref.weight p)
  | None => []
  end ++
  match shorterThan prefs with
  | Some p => add_if (Number.lt (runtimeToMinutes (runtime movie))
                                (runtimeToMinutes (Pref.value p)))
                     (Pref.weight p)
  | None => []
  end ++
  match favoriteGenre prefs with
  | Some p => add_if (Str.includes (Str.toLowerCase (genre movie)) (Pref.value p))
                     (Pref.weight p)
  | None => []
  end ++
  match leastFavoriteDirector prefs with
  | Some p => add_if (String.eqb (director movie) (Pref.value p))
                     (- Pref.weight p)%float
  | None => []
  end ++
  match favoriteActors prefs with
  | Some p => [(Pref.weight p
                / length_number (matchingActors movie (Pref.value p)))%float]
  | None => []
  end ++
  match favoritePlotElements prefs with
  | Some p => [(length_number (matchingElements movie (Pref.value p))
                * Pref.weight p)%float]
  | None => []
  end ++
  match minimumRottenTomatoesScore prefs with
  | Some p => add_if (Number.ge (getRottenTomatoesScore movie) (Pref.value p))
                     (Pref.weight p)
  | None => []
  end.

(** The sum, from [0] and in roster order, of the scores each voter
    gives alone. *)
Definition sumOfVoterScores (movie : IMovie) (people : list IPerson) : float :=
  fold_left (fun acc person => (acc + calculateScore movie [person])%float)
            people 0%float.

(** A criterion with its target value and weight. *)
Inductive Criterion : Type :=
| AfterYear (p : Pref.t float)
| BeforeYear (p : Pref.t float)
| MaximumAgeRating (p : Pref.t string)
| ShorterThan (p : Pref.t string)
| FavoriteGenre (p : Pref.t string)
| LeastFavoriteDirector (p : Pref.t string)
| FavoriteActors (p : Pref.t (list string))
| FavoritePlotElements (p : Pref.t (list string))
| MinimumRottenTomatoesScore (p : Pref.t float).

Definition weightOf (c : Criterion) : float :=
  match c with
  | AfterYear p | BeforeYear p | MinimumRottenTomatoesScore p => Pref.weight p
  | MaximumAgeRating p | ShorterThan p | FavoriteGenre p
  | LeastFavoriteDirector p => Pref.weight p
  | FavoriteActors p | FavoritePlotElements p => Pref.weight p
  end.

(** The preference set has no criterion of the kind of [c]. *)
Definition absent (c : Criterion) (prefs : Preferences) : Prop :=
  match c with
  | AfterYear _ => afterYear prefs = None
  | BeforeYear _ => beforeYear prefs = None
  | MaximumAgeRating _ => maximumAgeRating prefs = None
  | ShorterThan _ => shorterThan prefs = None
  | FavoriteGenre _ => favoriteGenre prefs = None
  | LeastFavoriteDirector _ => leastFavoriteDirector prefs = None
  | FavoriteActors _ => favoriteActors prefs = None
  | FavoritePlotElements _ => favoritePlotElements prefs = None
  | MinimumRottenTomatoesScore _ => minimumRottenTomatoesScore prefs = None
  end.

(** The preference set with the criterion [c] put in. *)
Definition addCriterion (c : Criterion) (prefs : Preferences) : Preferences :=
  {| afterYear :=
       match c with AfterYear p => Some p | _ => afterYear prefs end;
     beforeYear :=
       match c with BeforeYear p => Some p | _ => beforeYear prefs end;
     maximumAgeRating :=
       match c with
       | MaximumAgeRating p => Some p
       | _ => maximumAgeRating prefs
       end;
     shorterThan :=
       match c with ShorterThan p => Some p | _ => shorterThan prefs end;
     favoriteGenre :=
       match c with FavoriteGenre p => Some p | _ => favoriteGenre prefs end;
     leastFavoriteDirector :=
       match c with
       | LeastFavoriteDirector p => Some p
       | _ => leastFavoriteDirector prefs
       end;
     favoriteActors :=
       match c with FavoriteActors p => Some p | _ => favoriteActors prefs end;
     favoritePlotElements :=
       match c with
       | FavoritePlotElements p => Some p
       | _ => favoritePlotElements prefs
       end;
     minimumRottenTomatoesScore :=
       match c with
       | MinimumRottenTomatoesScore p => Some p
       | _ => minimumRottenTomatoesScore prefs
       end |}.

Definition withCriterion (c : Criterion) (person : IPerson) : IPerson :=
  {| name := name person;
     preferences := addCriterion c (preferences person) |}.

(** The length of a JavaScript array is below [2 ^ 32]. *)
Definition isArray {A : Type} (l : list A) : Prop :=
  (Z.of_nat (List.length l) < 2 ^ 32)%Z.

(** ** Example data *)

Module Examples.

Definition shawshankWith (imdbID title : string) : IMovie :=
  {| imdbID := imdbID; title := title;
     year := "1994"; genre := "Drama"; director := "Frank Darabont";
     actors := "Tim Robbins, Morgan Freeman";
     plot := "a banker is sentenced to life in prison";
     rated := "R"; runtime := "2h 22min";
     ratings := [Rating.make "Rotten Tomatoes" "91%"] |}.

Definition shawshank : IMovie :=
  shawshankWith "tt0111161" "The Shawshank Redemption".

Definition voter (prefs : Preferences) : IPerson :=
  {| name := "voter"; preferences := prefs |}.

Definition nobody : IPerson := voter noPreferences.

(** [afterYear {value: 1990, weight: 5}] and
    [minimumRottenTomatoesScore {value: 90, weight: 3}]. *)
Definition modernAndAcclaimed : Preferences :=
  {| afterYear := Some (Pref.make 1990%float 5%float);
     beforeYear := None; maximumAgeRating := None; shorterThan := None;
     favoriteGenre := None; leastFavoriteDirector := None;
     favoriteActors := None; favoritePlotElements := None;
     minimumRottenTomatoesScore := Some (Pref.make 90%float 3%float) |}.

(** [favoriteActors {value: ["Tom Hanks"], weight: 1}] *)
Definition hanksFan : IPerson :=
  withCriterion (FavoriteActors (Pref.make ["Tom Hanks"] 1%float)) nobody.

(** The doubles nearest to 0.1, 0.2 and 0.3. *)
Definition tenth : float := 0x1.999999999999ap-4%float.
Definition fifth : float := 0x1.999999999999ap-3%float.
Definition threeTenths : float := 0x1.3333333333333p-2%float.

Definition afterYearOnly (y w : float) : Preferences :=
  addCriterion (AfterYear (Pref.make y w)) noPreferences.

(** [afterYear {value: 1990, weight: 0.1}] *)
Definition alice : IPerson := voter (afterYearOnly 1990%float tenth).

(** [afterYear {value: 1990, weight: 0.2}] and
    [beforeYear {value: 2000, weight: 0.3}] *)
Definition bob : IPerson :=
  voter (addCriterion (BeforeYear (Pref.make 2000%float threeTenths))
           (afterYearOnly 1990%float fifth)).

(** The largest finite double, 1.7976931348623157e308. *)
Definition huge : float := 0x1.fffffffffffffp+1023%float.

Definition movieOf (imdbID year plot : string) : IMovie :=
  {| imdbID := imdbID; title := imdbID; year := year; genre := "Drama";
     director := ""; actors := ""; plot := plot; rated := "PG";
     runtime := "1h 30min"; ratings := [] |}.

(** Three movies; only the second is from 2000 or later and tells of a
    heist on a train. *)
Definition first : IMovie := movieOf "tt0000001" "1994" "a quiet summer".
Definition second : IMovie := movieOf "tt0000002" "2005" "a heist on a train".
Definition third : IMovie := movieOf "tt0000003" "1996" "a long winter".

(** Two voters give the largest double to a movie from 2000 on, one takes
    it away for each of two plot elements, and two give one point to a
    movie from 1990 on, respectively from 1995 on. *)
Definition jury : list IPerson :=
  [ voter (afterYearOnly 2000%float huge);
    voter (afterYearOnly 2000%float huge);
    voter (addCriterion
             (FavoritePlotElements
                (Pref.make ["heist"; "train"] (- huge)%float))
             noPreferences);
    voter (afterYearOnly 1990%float 1%float);
    voter (afterYearOnly 1995%float 1%float) ].

(** Three movies that score 10, -4 and 0 with the two critics: ten
    points for a movie from 2000 on, four off for the director Ed Wood. *)
Definition directedBy (imdbID year director : string) : IMovie :=
  {| imdbID := imdbID; title := imdbID; year := year; genre := "";
     director := director; actors := ""; plot := ""; rated := "";
     runtime := ""; ratings := [] |}.

Definition recent : IMovie := directedBy "tt0000010" "2005" "Jane Doe".
Definition disliked : IMovie := directedBy "tt0000011" "1959" "Ed Wood".
Definition plain : IMovie := directedBy "tt0000012" "1990" "Jane Doe".

Definition critics : list IPerson :=
  [ voter (afterYearOnly 2000%float 10%float);
    voter (addCriterion (LeastFavoriteDirector (Pref.make "Ed Wood" 4%float))
             noPreferences) ].

(** A record with a given field and nothing else of interest. *)
Definition ratedMovie (rated : string) : IMovie :=
  {| imdbID := ""; title := ""; year := ""; genre := ""; director := "";
     actors := ""; plot := ""; rated := rated; runtime := ""; ratings := [] |}.

Definition ratingsMovie (ratings : list Rating.t) : IMovie :=
  {| imdbID := ""; title := ""; year := ""; genre := ""; director := "";
     actors := ""; plot := ""; rated := ""; runtime := ""; ratings := ratings |}.

(** [maximumAgeRating {value: rating, weight: w}] *)
Definition maximumAgeRatingOnly (rating : string) (w : float) : Preferences :=
  addCriterion (MaximumAgeRating (Pref.make rating w)) noPreferences.

(** [favoriteGenre {value: genre, weight: w}] *)
Definition favoriteGenreOnly (genre : string) (w : float) : Preferences :=
  addCriterion (FavoriteGenre (Pref.make genre w)) noPreferences.

(** [minimumRottenTomatoesScore {value: v, weight: w}] *)
Definition minimumRottenTomatoesScoreOnly (v w : float) : Preferences :=
  addCriterion (MinimumRottenTomatoesScore (Pref.make v w)) noPreferences.

End Examples.

(** ** Notions for the further properties *)

(** The place of a double on the integer line: its value in units of the
    least positive double, the infinities beyond every finite one. *)
Definition ord (x : spec_float) : Z :=
  match x with
  | S754_zero _ => 0%Z
  | S754_nan => 0%Z
  | S754_infinity s => cond_Zopp s (2 ^ 2098)%Z
  | S754_finite s m e => cond_Zopp s (Zpos m * 2 ^ (e + 1074))%Z
  end.

(** The place of a number on the integer line; [0] for [NaN]. *)
Definition place (x : float) : Z := ord (Prim2SF x).

(** The comparison function [rankMovies] passes to [sort]. *)
Definition comparefn (a b : Ranked) : float := (score b - score a)%float.

(** The place of a ranked movie's score. *)
Definition rankKey (r : Ranked) : Z := place (score r).

(** A numeral: a string of decimal digits, and the integer it writes. *)
Fixpoint all_digits (s : string) : bool :=
  match s with
  | EmptyString => true
  | String c s' => is_decimal_digit c && all_digits s'
  end.

Fixpoint numeral_value_from (a : Z) (s : string) : Z :=
  match s with
  | EmptyString => a
  | String c s' => numeral_value_from (a * 10 + (Z.of_N (Str.code c) - 48)) s'
  end.

Definition numeral_value (s : string) : Z := numeral_value_from 0 s.

(** The text after a numeral: empty, or not beginning with a digit. *)
Definition ends_numeral (rest : string) : bool :=
  match rest with
  | EmptyString => true
  | String c _ => negb (is_decimal_digit c)
  end.

(** [IPrompt]: the movies to rank, by identifier, and the voters. *)
Module IPrompt.
Record t : Type := make { movies : list string; people : list IPerson }.
End IPrompt.

(** [index.ts]: the ranking submitted for a prompt, from the details
    fetched for its movies. *)
Definition ranking (movieDetails : list IMovie) (prompt : IPrompt.t)
  : list string :=
  map id (rankMovies movieDetails (IPrompt.people prompt)).

(** A score that is not a finite number. *)
Definition notFinite (x : float) : Prop :=
  x = nan \/ x = infinity \/ x = neg_infinity.

(** The double [x] is the integer [n]. *)
Definition integral (x : spec_float) (n : Z) : Prop :=
  x <> S754_nan /\ ord x = (n * 2 ^ 1074)%Z.

(** The number [x] is a whole number, and which one: its place is a
    multiple of the place of [1], which is [2 ^ 1074]. *)
Definition isWhole (x : float) : bool :=
  match Prim2SF x with
  | S754_nan | S754_infinity _ => false
  | y => (ord y mod 2 ^ 1074 =? 0)%Z
  end.

Definition wholeOf (x : float) : Z := (place x / 2 ^ 1074)%Z.

(** The amounts the voters of a roster add to the score of a movie, in
    the order in which they are added. *)
Definition amounts (movie : IMovie) (people : list IPerson) : list float :=
  flat_map (contributions movie) people.

Definition wholeAmounts (movie : IMovie) (people : list IPerson) : bool :=
  forallb isWhole (amounts movie people).

Definition sumZ (l : list Z) : Z := fold_right Z.add 0%Z l.

(** The integer sum of whole amounts, and the sum of their magnitudes. *)
Definition total (movie : IMovie) (people : list IPerson) : Z :=
  sumZ (map wholeOf (amounts movie people)).

Definition magnitude (movie : IMovie) (people : list IPerson) : Z :=
  sumZ (map (fun c => Z.abs (wholeOf c)) (amounts movie people)).

(** The weights of the criteria a voter has. *)
Definition weightOption {T : Type} (o : option (Pref.t T)) : list float :=
  match o with
  | Some p => [Pref.weight p]
  | None => []
  end.

Definition weights (prefs : Preferences) : list float :=
  weightOption (afterYear prefs) ++ weightOption (beforeYear prefs)
  ++ weightOption (maximumAgeRating prefs) ++ weightOption (shorterThan prefs)
  ++ weightOption (favoriteGenre prefs)
  ++ weightOption (leastFavoriteDirector prefs)
  ++ weightOption (favoriteActors prefs)
  ++ weightOption (favoritePlotElements prefs)
  ++ weightOption (minimumRottenTomatoesScore prefs).

(** Amounts that are whole, with magnitudes summing to at most [B]. *)
Definition within (B : Z) (cs : list float) : Prop :=
  forallb isWhole cs = true
  /\ (sumZ (map (fun c => Z.abs (wholeOf c)) cs) <= B)%Z.

(** A weight that is a whole number of magnitude at most [W]. *)
Definition boundedWeight (W : Z) (w : float) : Prop :=
  isWhole w = true /\ (Z.abs (wholeOf w) <= W)%Z.

(** A voter whose weights are whole numbers of magnitude at most [W],
    with no favourite actors and at most [L] favourite plot elements. *)
Definition wholeWeights (W : Z) (L : nat) (person : IPerson) : Prop :=
  let prefs := preferences person in
  favoriteActors prefs = None
  /\ Forall (boundedWeight W) (weights prefs)
  /\ match favoritePlotElements prefs with
     | Some p => (List.length (Pref.value p) <= L)%nat
     | None => True
     end.

(** A runtime written [xh ymin]: the numeral of the hours, the mark [h],
    white space, the numeral of the minutes, and a rest that begins with
    no digit and holds no [h]; and the minutes it stands for. *)
Fixpoint all_spaces (s : string) : bool :=
  match s with
  | EmptyString => true
  | String c s' => Str.is_space c && all_spaces s'
  end.

Definition hoursMinutes (H ws M rest : string) : string :=
  (H ++ "h" ++ ws ++ M ++ rest)%string.

Definition wellWritten (H ws M rest : string) : Prop :=
  H <> EmptyString /\ all_digits H = true /\ all_spaces ws = true
  /\ M <> EmptyString /\ all_digits M = true
  /\ ends_numeral rest = true /\ Str.includes rest "h" = false.

Definition minutesOf (H M : string) : Z :=
  (60 * numeral_value H + numeral_value M)%Z.

(** * Facts about binary64 arithmetic

    The Standard Library specifies the primitive operations through
    [spec_float]; it has no lemma on rounding.  What the properties of the
    program need is proved here: a rounded non-zero value keeps its sign,
    hence the sign of a difference tells the order of its operands and a
    sum is [-0] only when its first operand is; and an integer below
    [2 ^ 53] is a double. *)

Module Binary64.

Local Open Scope Z_scope.

Abbreviation fexp := (SpecFloat.fexp prec emax).
Abbreviation shr_fexp := (SpecFloat.shr_fexp prec emax).
Abbreviation binary_round_aux := (SpecFloat.binary_round_aux prec emax).
Abbreviation binary_round := (SpecFloat.binary_round prec emax).
Abbreviation binary_normalize := (SpecFloat.binary_normalize prec emax).

Lemma fexp_eq (e : Z) : fexp e = Z.max (e - 53) (-1074).
Proof. reflexivity. Qed.

Lemma digits2_size (p : positive) : digits2_pos p = Pos.size p.
Proof. induction p; simpl; congruence. Qed.

Lemma digits2_lower (p : positive) : 2 ^ (Zpos (digits2_pos p) - 1) <= Zpos p.
Proof.
  rewrite digits2_size.
  pose proof (Pos.size_le p) as H.
  apply Pos2Z.pos_le_pos in H. rewrite Pos2Z.inj_pow in H.
  rewrite (Pos2Z.inj_xO p) in H.
  replace (Zpos (Pos.size p)) with (Z.succ (Zpos (Pos.size p) - 1)) in H by lia.
  rewrite Z.pow_succ_r in H by lia. lia.
Qed.

Lemma digits2_upper (p : positive) : Zpos p < 2 ^ Zpos (digits2_pos p).
Proof.
  rewrite digits2_size.
  pose proof (Pos.size_gt p) as H.
  apply Pos2Z.pos_lt_pos in H. now rewrite Pos2Z.inj_pow in H.
Qed.

Lemma shr_1_m (mrs : shr_record) :
  0 <= shr_m mrs -> shr_m (shr_1 mrs) = shr_m mrs / 2.
Proof.
  destruct mrs as [m r s]; intros Hm; rewrite <- Z.div2_div.
  destruct m as [|[p|p|]|p]; try reflexivity; simpl in Hm; lia.
Qed.

Lemma iter_shr_1_m (p : positive) (mrs : shr_record) :
  0 <= shr_m mrs ->
  shr_m (iter_pos shr_1 p mrs) = shr_m mrs / 2 ^ Zpos p.
Proof.
  revert mrs; induction p as [p IH|p IH|]; intros mrs Hm; simpl iter_pos.
  - assert (H1 : 0 <= shr_m (shr_1 mrs)).
    { rewrite shr_1_m by assumption. apply Z.div_pos; lia. }
    assert (H2 : 0 <= shr_m (iter_pos shr_1 p (shr_1 mrs))).
    { rewrite IH by assumption. apply Z.div_pos; [lia|]. apply Z.pow_pos_nonneg; lia. }
    rewrite IH, IH, shr_1_m by assumption.
    rewrite !Z.div_div by (try apply Z.pow_pos_nonneg; lia).
    f_equal. rewrite (Pos2Z.inj_xI p).
    replace (2 * Zpos p + 1) with (1 + Zpos p + Zpos p) by lia.
    rewrite !Z.pow_add_r by lia. lia.
  - assert (H2 : 0 <= shr_m (iter_pos shr_1 p mrs)).
    { rewrite IH by assumption. apply Z.div_pos; [lia|]. apply Z.pow_pos_nonneg; lia. }
    rewrite IH, IH by assumption.
    rewrite !Z.div_div by (try apply Z.pow_pos_nonneg; lia).
    f_equal. rewrite (Pos2Z.inj_xO p).
    replace (2 * Zpos p) with (Zpos p + Zpos p) by lia.
    rewrite !Z.pow_add_r by lia. lia.
  - rewrite shr_1_m by assumption. reflexivity.
Qed.

(** Rounding a non-zero integer multiple of a power of two not below the
    least exponent never gives a zero: the result carries the sign. *)

Lemma Zdigits2_lower (m : Z) :
  0 < m -> 0 < Zdigits2 m /\ 2 ^ (Zdigits2 m - 1) <= m.
Proof.
  destruct m as [|p|p]; try lia; intros _; simpl.
  split; [lia | apply digits2_lower].
Qed.

Lemma shr_record_of_loc_m (m : Z) (l : location) :
  shr_m (shr_record_of_loc m l) = m.
Proof. destruct l as [|[]]; reflexivity. Qed.

Lemma shr_fexp_pos (m e : Z) (l : location) :
  0 < m -> -1074 <= e ->
  0 < shr_m (fst (shr_fexp m e l)) /\ -1074 <= snd (shr_fexp m e l).
Proof.
  intros Hm He. destruct (Zdigits2_lower m Hm) as [Hd Hlow].
  unfold SpecFloat.shr_fexp, shr. rewrite fexp_eq.
  destruct (Z.max (Zdigits2 m + e - 53) (-1074) - e) as [|p|p] eqn:Hn;
    simpl fst; simpl snd; rewrite ?shr_record_of_loc_m; try lia.
  rewrite iter_shr_1_m by (rewrite shr_record_of_loc_m; lia).
  rewrite shr_record_of_loc_m. split; [|lia].
  apply Z.div_str_pos. split; [apply Z.pow_pos_nonneg; lia|].
  apply Z.le_trans with (2 ^ (Zdigits2 m - 1)); [|assumption].
  apply Z.pow_le_mono_r; lia.
Qed.

Lemma round_nearest_even_pos (m : Z) (l : location) :
  0 < m -> 0 < round_nearest_even m l.
Proof.
  intros Hm. destruct l as [|[]]; simpl; try lia.
  destruct (Z.even m); lia.
Qed.

Lemma binary_round_aux_sign (sx : bool) (mx ex : Z) (lx : location) :
  0 < mx -> -1074 <= ex -> has_sign sx (binary_round_aux sx mx ex lx).
Proof.
  intros Hm He. unfold SpecFloat.binary_round_aux.
  pose proof (shr_fexp_pos mx ex lx Hm He) as H1.
  destruct (shr_fexp mx ex lx) as [mrs' e']. simpl in H1. destruct H1 as [Hm' He'].
  pose proof (shr_fexp_pos _ e' loc_Exact
                (round_nearest_even_pos _ (loc_of_shr_record mrs') Hm') He') as H2.
  destruct (shr_fexp _ e' loc_Exact) as [mrs'' e'']. simpl in H2.
  destruct (shr_m mrs'') as [|m|m]; try lia.
  destruct (e'' <=? emax - prec); reflexivity.
Qed.

Lemma binary_round_sign (sx : bool) (mx : positive) (ex : Z) :
  -1074 <= ex -> has_sign sx (binary_round sx mx ex).
Proof.
  intros He. unfold SpecFloat.binary_round, shl_align.
  set (e' := fexp (Zpos (digits2_pos mx) + ex)).
  assert (He' : -1074 <= e') by (unfold e'; rewrite fexp_eq; lia).
  destruct (e' - ex); apply binary_round_aux_sign; lia.
Qed.

Lemma binary_normalize_gt_0 (m e : Z) :
  -1074 <= e ->
  SFltb (S754_zero false) (binary_normalize m e false) = (0 <? m).
Proof.
  intros He. destruct m as [|p|p]; simpl; try reflexivity.
  - pose proof (binary_round_sign false p e He) as H.
    destruct (binary_round false p e) as [| s | | s m' e']; simpl in H; try contradiction;
      subst; reflexivity.
  - pose proof (binary_round_sign true p e He) as H.
    destruct (binary_round true p e) as [| s | | s m' e']; simpl in H; try contradiction;
      subst; reflexivity.
Qed.

(** The aligned mantissas of an addition or subtraction. *)

Lemma shl_align_value (mx : positive) (ex ez : Z) :
  ez <= ex -> Zpos (fst (shl_align mx ex ez)) = Zpos mx * 2 ^ (ex - ez).
Proof.
  intros Hle. unfold shl_align. destruct (ez - ex) as [|d|d] eqn:Hd; try lia.
  - replace (ex - ez) with 0 by lia. simpl fst. lia.
  - simpl fst. change (Pos.iter xO mx d) with (shift_pos d mx).
    rewrite shift_pos_correct. replace (ex - ez) with (Zpos d) by lia.
    change (Z.pow_pos 2 d) with (2 ^ Zpos d). lia.
Qed.

(** What [bounded] says of a mantissa and its exponent. *)

Lemma bounded_inv (m : positive) (e : Z) :
  bounded prec emax m e = true ->
  -1074 <= e /\ Zpos m < 2 ^ 53 /\ (-1074 < e -> 2 ^ 52 <= Zpos m).
Proof.
  unfold bounded, canonical_mantissa. rewrite fexp_eq.
  intros H. apply andb_prop in H. destruct H as [H _].
  apply Z.eqb_eq in H.
  pose proof (digits2_lower m) as Hlow. pose proof (digits2_upper m) as Hup.
  split; [lia|]. split.
  - apply Z.lt_le_trans with (1 := Hup). apply Z.pow_le_mono_r; lia.
  - intros He. replace (Zpos (digits2_pos m)) with 53 in Hlow by lia. exact Hlow.
Qed.

(** On valid operands the comparison by exponent, then mantissa, is the
    comparison of the aligned mantissas. *)

Lemma aligned_compare (mx : positive) (ex : Z) (my : positive) (ey : Z) :
  bounded prec emax mx ex = true -> bounded prec emax my ey = true ->
  (Zpos mx * 2 ^ (ex - Z.min ex ey) ?= Zpos my * 2 ^ (ey - Z.min ex ey)) =
  match ex ?= ey with
  | Eq => Pos.compare_cont Eq mx my
  | c => c
  end.
Proof.
  intros Hx Hy.
  destruct (bounded_inv _ _ Hx) as (Hex & Hmx & Hnx).
  destruct (bounded_inv _ _ Hy) as (Hey & Hmy & Hny).
  destruct (Z.compare_spec ex ey) as [Heq|Hlt|Hgt].
  - subst ey. rewrite Z.min_id, Z.sub_diag. simpl (2 ^ 0). rewrite !Z.mul_1_r.
    reflexivity.
  - rewrite Z.min_l, Z.sub_diag by lia. simpl (2 ^ 0). rewrite Z.mul_1_r.
    apply Z.compare_lt_iff.
    assert (H2 : 2 ^ 1 <= 2 ^ (ey - ex)) by (apply Z.pow_le_mono_r; lia).
    specialize (Hny ltac:(lia)). change (2 ^ 1) with 2 in H2.
    change (2 ^ 53) with (2 ^ 52 * 2) in Hmx. nia.
  - rewrite Z.min_r, Z.sub_diag by lia. simpl (2 ^ 0). rewrite Z.mul_1_r.
    apply Z.compare_gt_iff.
    assert (H2 : 2 ^ 1 <= 2 ^ (ex - ey)) by (apply Z.pow_le_mono_r; lia).
    specialize (Hnx ltac:(lia)). change (2 ^ 1) with 2 in H2.
    change (2 ^ 53) with (2 ^ 52 * 2) in Hmy. nia.
Qed.

(** The sign of a difference is the order of its operands: [y - x > 0]
    exactly when [x < y], for all doubles, [NaN] and infinities
    included. *)

Lemma SFsub_gt_0 (x y : spec_float) :
  valid_binary x = true -> valid_binary y = true ->
  SFltb (S754_zero false) (SF64sub y x) = SFltb x y.
Proof.
  intros Hx Hy.
  destruct x as [sx|sx| |sx mx ex], y as [sy|sy| |sy my ey];
    try reflexivity;
    try (destruct sx; reflexivity); try (destruct sy; reflexivity);
    try (destruct sx, sy; reflexivity).
  simpl in Hx, Hy.
  destruct (bounded_inv _ _ Hx) as (Hex & _).
  destruct (bounded_inv _ _ Hy) as (Hey & _).
  pose proof (aligned_compare mx ex my ey Hx Hy) as Hc.
  unfold SF64sub, SpecFloat.SFsub.
  rewrite binary_normalize_gt_0 by lia.
  rewrite !shl_align_value by lia.
  rewrite (Z.min_comm ey ex).
  set (X := Zpos mx * 2 ^ (ex - Z.min ex ey)) in *.
  set (Y := Zpos my * 2 ^ (ey - Z.min ex ey)) in *.
  assert (HX : 0 < X) by (apply Z.mul_pos_pos; [lia | apply Z.pow_pos_nonneg; lia]).
  assert (HY : 0 < Y) by (apply Z.mul_pos_pos; [lia | apply Z.pow_pos_nonneg; lia]).
  pose proof (Z.compare_spec X Y) as HS. rewrite Hc in HS. clear Hc.
  unfold SFltb, SFcompare.
  change (PosDef.Pos.compare_cont Eq mx my) with (Pos.compare_cont Eq mx my).
  destruct sx, sy; unfold cond_Zopp;
    [ destruct (Z.ltb_spec 0 (- Y - - X))
    | destruct (Z.ltb_spec 0 (Y - - X))
    | destruct (Z.ltb_spec 0 (- Y - X))
    | destruct (Z.ltb_spec 0 (Y - X)) ];
    try (exfalso; lia); try reflexivity; revert HS;
    (destruct (ex ?= ey); [destruct (Pos.compare_cont Eq mx my)| |]);
    simpl; intros HS; try reflexivity; exfalso; inversion HS; lia.
Qed.

(** A sum or difference of doubles is [-0] only when the first operand
    is. *)

Lemma binary_normalize_not_neg_zero (m e : Z) :
  -1074 <= e -> binary_normalize m e false <> S754_zero true.
Proof.
  intros He. destruct m as [|p|p]; simpl.
  - discriminate.
  - pose proof (binary_round_sign false p e He) as H.
    destruct (binary_round false p e); simpl in H; try contradiction; discriminate.
  - pose proof (binary_round_sign true p e He) as H.
    destruct (binary_round true p e); simpl in H; try contradiction; discriminate.
Qed.

Lemma SFadd_neg_zero (x y : spec_float) :
  valid_binary x = true -> valid_binary y = true ->
  SF64add x y = S754_zero true -> x = S754_zero true.
Proof.
  intros Hx Hy.
  destruct x as [sx|sx| |sx mx ex], y as [sy|sy| |sy my ey]; simpl;
    try discriminate; try (destruct sx, sy; simpl; congruence).
  intros H. exfalso. revert H. simpl in Hx, Hy.
  destruct (bounded_inv _ _ Hx) as (Hex & _).
  destruct (bounded_inv _ _ Hy) as (Hey & _).
  apply binary_normalize_not_neg_zero. lia.
Qed.

Lemma SFsub_neg_zero (x y : spec_float) :
  valid_binary x = true -> valid_binary y = true ->
  SF64sub x y = S754_zero true -> x = S754_zero true.
Proof.
  intros Hx Hy.
  destruct x as [sx|sx| |sx mx ex], y as [sy|sy| |sy my ey]; simpl;
    try discriminate; try (destruct sx, sy; simpl; congruence).
  intros H. exfalso. revert H. simpl in Hx, Hy.
  destruct (bounded_inv _ _ Hx) as (Hex & _).
  destruct (bounded_inv _ _ Hy) as (Hey & _).
  apply binary_normalize_not_neg_zero. lia.
Qed.

(** An integer below [2 ^ 53] is a double. *)

Lemma digits2_iter_xO (m d : positive) :
  digits2_pos (Pos.iter xO m d) = (digits2_pos m + d)%positive.
Proof.
  induction d as [|d IH] using Pos.peano_ind.
  - simpl. lia.
  - rewrite Pos.iter_succ. simpl. rewrite IH. lia.
Qed.

Lemma shr_fexp_canonical (m e : Z) (l : location) :
  fexp (Zdigits2 m + e) = e -> shr_fexp m e l = (shr_record_of_loc m l, e).
Proof.
  intros H. unfold SpecFloat.shr_fexp.
  change (shr (shr_record_of_loc m l) e (fexp (Zdigits2 m + e) - e)
          = (shr_record_of_loc m l, e)).
  rewrite H, Z.sub_diag. reflexivity.
Qed.

Lemma binary_normalize_small (p : positive) :
  Zpos p < 2 ^ 53 ->
  exists m e, binary_normalize (Zpos p) 0 false = S754_finite false m e
              /\ bounded prec emax m e = true.
Proof.
  intros Hp. pose proof (digits2_lower p) as Hlow.
  set (d := Zpos (digits2_pos p)) in *.
  assert (Hd : 1 <= d <= 53).
  { split; [unfold d; lia|].
    destruct (Z_le_gt_dec d 53) as [|Hgt]; [assumption|exfalso].
    assert (2 ^ 53 <= 2 ^ (d - 1)) by (apply Z.pow_le_mono_r; lia). lia. }
  unfold SpecFloat.binary_normalize, SpecFloat.binary_round.
  fold d. rewrite fexp_eq, Z.add_0_r.
  replace (Z.max (d - 53) (-1074)) with (d - 53) by lia.
  assert (Hal : exists mz, shl_align p 0 (d - 53) = (mz, d - 53)
                           /\ Zpos (digits2_pos mz) = 53).
  { unfold shl_align. destruct (d - 53 - 0) as [|q|q] eqn:Hq; try lia.
    - exists p. split; [f_equal; lia | fold d; lia].
    - exists (Pos.iter xO p q). split; [reflexivity|].
      rewrite digits2_iter_xO, Pos2Z.inj_add. fold d. lia. }
  destruct Hal as (mz & -> & Hmz).
  exists mz, (d - 53).
  assert (Hcan : fexp (Zpos (digits2_pos mz) + (d - 53)) = d - 53)
    by (rewrite fexp_eq, Hmz; lia).
  unfold SpecFloat.binary_round_aux.
  rewrite (shr_fexp_canonical (Zpos mz) (d - 53) loc_Exact Hcan).
  cbn [shr_record_of_loc loc_of_shr_record round_nearest_even shr_m].
  rewrite (shr_fexp_canonical (Zpos mz) (d - 53) loc_Exact Hcan).
  cbn [shr_record_of_loc shr_m].
  assert (Hle : (d - 53 <=? emax - prec) = true)
    by (apply Z.leb_le; change (emax - prec) with 971; lia).
  rewrite Hle. split; [reflexivity|].
  unfold bounded, canonical_mantissa. rewrite Hcan, Z.eqb_refl, Hle. reflexivity.
Qed.

End Binary64.

Module NumberFacts.

Local Open Scope float_scope.

Lemma Prim2SF_nan : Prim2SF nan = S754_nan.
Proof. reflexivity. Qed.

Lemma Prim2SF_zero : Prim2SF 0 = S754_zero false.
Proof. reflexivity. Qed.

Lemma Prim2SF_eq_nan (x : float) : Prim2SF x = S754_nan -> x = nan.
Proof. intros H. apply Prim2SF_inj. rewrite H. reflexivity. Qed.

Lemma not_nan_Prim2SF (x : float) : x <> nan -> Prim2SF x <> S754_nan.
Proof. intros H E. apply H, Prim2SF_eq_nan, E. Qed.

(** Every comparison with [NaN] is false. *)
Lemma ge_nan_l (v : float) : Number.ge nan v = false.
Proof.
  unfold Number.ge. rewrite leb_spec, Prim2SF_nan.
  destruct (Prim2SF v); reflexivity.
Qed.

(** Adding [NaN] gives [NaN]. *)
Lemma add_nan_r (x : float) : x + nan = nan.
Proof.
  apply Prim2SF_inj. rewrite add_spec, Prim2SF_nan.
  destruct (Prim2SF x); reflexivity.
Qed.

(** Division by zero: [NaN] for a zero or [NaN] dividend, an infinity
    otherwise; never a finite number. *)
Lemma div_zero (w : float) :
  w / 0 = nan \/ w / 0 = infinity \/ w / 0 = neg_infinity.
Proof.
  assert (H : Prim2SF (w / 0) = SF64div (Prim2SF w) (S754_zero false))
    by (rewrite div_spec; reflexivity).
  destruct (Prim2SF w) as [s|s| |s m e]; simpl in H.
  - left. apply Prim2SF_inj. rewrite H. reflexivity.
  - destruct s; [right; right | right; left];
      apply Prim2SF_inj; rewrite H; reflexivity.
  - left. apply Prim2SF_inj. rewrite H. reflexivity.
  - destruct s; [right; right | right; left];
      apply Prim2SF_inj; rewrite H; reflexivity.
Qed.

(** [y - x > 0] exactly when [x < y]. *)
Lemma sub_gt_0 (x y : float) : Number.gt (y - x) 0 = Number.lt x y.
Proof.
  unfold Number.gt, Number.lt.
  rewrite !ltb_spec, sub_spec, Prim2SF_zero.
  apply Binary64.SFsub_gt_0; apply Prim2SF_valid.
Qed.

Lemma SFcompare_antisym (x y : spec_float) :
  SFcompare y x = option_map CompOpp (SFcompare x y).
Proof.
  destruct x as [sx|sx| |sx mx ex], y as [sy|sy| |sy my ey];
    try reflexivity;
    try (destruct sx; reflexivity); try (destruct sy; reflexivity);
    try (destruct sx, sy; reflexivity).
  unfold SFcompare.
  change (PosDef.Pos.compare_cont Eq) with (Pos.compare_cont Eq).
  rewrite (Z.compare_antisym ex ey).
  change (Pos.compare_cont Eq my mx) with (Pos.compare my mx).
  change (Pos.compare_cont Eq mx my) with (Pos.compare mx my).
  rewrite (Pos.compare_antisym mx my).
  destruct sx, sy; simpl; try reflexivity;
    destruct (ex ?= ey)%Z; simpl; try reflexivity;
    destruct (mx ?= my)%positive; reflexivity.
Qed.

Lemma SFcompare_defined (x y : spec_float) :
  x <> S754_nan -> y <> S754_nan -> exists c, SFcompare x y = Some c.
Proof.
  intros Hx Hy.
  destruct x, y; try congruence; simpl; eauto.
Qed.

(** Two numbers other than [NaN] are comparable. *)
Lemma not_lt_ge (x y : float) :
  x <> nan -> y <> nan -> Number.lt x y = false -> Number.ge x y = true.
Proof.
  unfold Number.lt, Number.ge. rewrite ltb_spec, leb_spec.
  intros Hx Hy. unfold SFltb, SFleb.
  rewrite (SFcompare_antisym (Prim2SF x) (Prim2SF y)).
  destruct (SFcompare_defined _ _ (not_nan_Prim2SF x Hx) (not_nan_Prim2SF y Hy))
    as [c ->].
  destruct c; simpl; congruence.
Qed.

Lemma lt_le (x y : float) : Number.lt x y = true -> PrimFloat.leb x y = true.
Proof.
  unfold Number.lt. rewrite ltb_spec, leb_spec. unfold SFltb, SFleb.
  destruct (SFcompare (Prim2SF x) (Prim2SF y)) as [[]|]; congruence.
Qed.

Lemma add_nan_l (x : float) : nan + x = nan.
Proof. apply Prim2SF_inj. rewrite add_spec, Prim2SF_nan. reflexivity. Qed.

Lemma sub_nan_l (x : float) : nan - x = nan.
Proof. apply Prim2SF_inj. rewrite sub_spec, Prim2SF_nan. reflexivity. Qed.

Lemma SFsub_add_opp (x y : spec_float) :
  SF64sub x y = SF64add x (SFopp y).
Proof.
  destruct x as [sx|sx| |sx mx ex], y as [sy|sy| |sy my ey];
    try reflexivity; destruct sx, sy; reflexivity.
Qed.

(** [x - w] is [x + (-w)]. *)
Lemma sub_add_opp (x w : float) : x - w = x + - w.
Proof.
  apply Prim2SF_inj. rewrite sub_spec, add_spec, opp_spec.
  apply SFsub_add_opp.
Qed.

Lemma Prim2SF_neg_zero : Prim2SF neg_zero = S754_zero true.
Proof. reflexivity. Qed.

(** Adding [+0] changes nothing but [-0]. *)
Lemma add_zero_r (x : float) : x <> neg_zero -> x + 0 = x.
Proof.
  intros Hx. apply Prim2SF_inj. rewrite add_spec, Prim2SF_zero.
  destruct (Prim2SF x) as [[]| | |] eqn:E; try reflexivity.
  exfalso. apply Hx, Prim2SF_inj. rewrite E. reflexivity.
Qed.

Lemma sub_zero_r (x : float) : x - 0 = x.
Proof.
  apply Prim2SF_inj. rewrite sub_spec, Prim2SF_zero.
  destruct (Prim2SF x) as [[]| | |]; reflexivity.
Qed.

(** A sum or difference is [-0] only when its first operand is. *)
Lemma add_not_neg_zero (x y : float) : x <> neg_zero -> x + y <> neg_zero.
Proof.
  intros Hx H. apply Hx, Prim2SF_inj. rewrite Prim2SF_neg_zero.
  apply (f_equal Prim2SF) in H. rewrite add_spec, Prim2SF_neg_zero in H.
  apply Binary64.SFadd_neg_zero with (Prim2SF y); auto using Prim2SF_valid.
Qed.

Lemma sub_not_neg_zero (x y : float) : x <> neg_zero -> x - y <> neg_zero.
Proof.
  intros Hx H. apply Hx, Prim2SF_inj. rewrite Prim2SF_neg_zero.
  apply (f_equal Prim2SF) in H. rewrite sub_spec, Prim2SF_neg_zero in H.
  apply Binary64.SFsub_neg_zero with (Prim2SF y); auto using Prim2SF_valid.
Qed.

(** The double of an array length: [+0] or finite and positive. *)
Lemma of_Z_pos (n : Z) :
  (0 < n < 2 ^ 53)%Z ->
  exists m e, Prim2SF (Number.of_Z n) = S754_finite false m e.
Proof.
  intros Hn. destruct n as [|p|p]; try lia.
  destruct (Binary64.binary_normalize_small p) as (m & e & Hm & Hb); [lia|].
  exists m, e. unfold Number.of_Z. rewrite Hm.
  apply Prim2SF_SF2Prim. exact Hb.
Qed.

Lemma of_Z_small (n : Z) :
  (0 <= n < 2 ^ 53)%Z ->
  Prim2SF (Number.of_Z n) = S754_zero false \/
  exists m e, Prim2SF (Number.of_Z n) = S754_finite false m e.
Proof.
  intros Hn. destruct (Z.eq_dec n 0) as [->|Hne].
  - left. reflexivity.
  - right. apply of_Z_pos. lia.
Qed.

Lemma mul_zero_r (k : float) :
  (Prim2SF k = S754_zero false \/ exists m e, Prim2SF k = S754_finite false m e) ->
  k * 0 = 0.
Proof.
  intros H. apply Prim2SF_inj. rewrite mul_spec, Prim2SF_zero.
  destruct H as [-> | (m & e & ->)]; reflexivity.
Qed.

Lemma div_zero_l (k : float) :
  (exists m e, Prim2SF k = S754_finite false m e) -> 0 / k = 0.
Proof.
  intros (m & e & H). apply Prim2SF_inj. rewrite div_spec, Prim2SF_zero, H.
  reflexivity.
Qed.

End NumberFacts.

(** ** The insertion sort *)

Section SortFacts.

Context {A : Type}.
Variable comparefn : A -> A -> float.

Lemma insert_perm (a : A) (l : list A) :
  Permutation (a :: l) (insert comparefn a l).
Proof.
  induction l as [|b l IH]; simpl.
  - apply Permutation_refl.
  - destruct (Number.gt (comparefn a b) 0).
    + apply perm_trans with (b :: a :: l); [apply perm_swap|].
      apply perm_skip, IH.
    + apply Permutation_refl.
Qed.

Lemma sort_perm (l : list A) : Permutation l (sort comparefn l).
Proof.
  induction l as [|a l IH]; simpl.
  - apply perm_nil.
  - apply perm_trans with (a :: sort comparefn l).
    + apply perm_skip, IH.
    + apply insert_perm.
Qed.

(** [ok] singles out the elements on which the comparison function
    decides the order [R]: [R a b] reads "[a] may stand before [b]". *)
Variable ok : A -> Prop.
Variable R : A -> A -> Prop.
Hypothesis keeps : forall a b,
    ok a -> ok b -> Number.gt (comparefn a b) 0 = false -> R a b.
Hypothesis moves : forall a b,
    ok a -> ok b -> Number.gt (comparefn a b) 0 = true -> R b a.

Lemma insert_HdRel (a b : A) (l : list A) :
  R b a -> HdRel R b l -> HdRel R b (insert comparefn a l).
Proof.
  intros Hba Hhd. destruct l as [|c l]; simpl.
  - constructor. exact Hba.
  - destruct (Number.gt (comparefn a c) 0); constructor.
    + inversion Hhd; assumption.
    + exact Hba.
Qed.

Lemma insert_sorted (a : A) (l : list A) :
  ok a -> Forall ok l -> Sorted R l -> Sorted R (insert comparefn a l).
Proof.
  intros Ha Hl Hs. induction l as [|b l IH]; simpl.
  - repeat constructor.
  - inversion Hl as [|? ? Hb Hl']; subst.
    inversion Hs as [|? ? Hs' Hhd]; subst.
    destruct (Number.gt (comparefn a b) 0) eqn:Hcmp.
    + constructor.
      * apply IH; assumption.
      * apply insert_HdRel; [apply moves; assumption | assumption].
    + constructor; [assumption|].
      constructor. apply keeps; assumption.
Qed.

Lemma sort_sorted (l : list A) : Forall ok l -> Sorted R (sort comparefn l).
Proof.
  induction l as [|a l IH]; intros Hl; simpl.
  - constructor.
  - inversion Hl; subst. apply insert_sorted; auto.
    apply Permutation_Forall with l; [apply sort_perm | assumption].
Qed.

End SortFacts.

(** ** Strings *)

Module StrFacts.

Lemma append_nil_r (s : string) : (s ++ "")%string = s.
Proof. induction s as [|c s IH]; simpl; congruence. Qed.

Lemma append_assoc (s t u : string) :
  (s ++ (t ++ u))%string = ((s ++ t) ++ u)%string.
Proof. induction s as [|c s IH]; simpl; congruence. Qed.

Lemma le_lex_le (s t : string) : Str.le s t = true <-> lex_le s t.
Proof.
  unfold Str.le, String.leb. split.
  - revert t. induction s as [|c s IH]; intros [|d t]; simpl; intros H;
      [apply lex_le_empty | apply lex_le_empty | discriminate | ].
    unfold Ascii.compare in H.
    destruct (N.compare_spec (N_of_ascii c) (N_of_ascii d)) as [Heq|Hlt|Hgt].
    + apply (f_equal ascii_of_N) in Heq. rewrite !ascii_N_embedding in Heq.
      subst d. apply lex_le_same, IH, H.
    + apply lex_le_less, Hlt.
    + discriminate.
  - induction 1 as [t|c d s t Hlt|c s t _ IH].
    + destruct t; reflexivity.
    + simpl. unfold Ascii.compare.
      apply N.compare_lt_iff in Hlt. unfold Str.code in Hlt. rewrite Hlt.
      reflexivity.
    + simpl. unfold Ascii.compare. rewrite N.compare_refl. exact IH.
Qed.

Lemma startsWith_app (s t : string) :
  Str.startsWith s t = true <-> exists post, s = (t ++ post)%string.
Proof.
  revert s. induction t as [|d t IH]; intros s; simpl.
  - split; [intros _; exists s; reflexivity | reflexivity].
  - destruct s as [|c s].
    + split; [discriminate | intros [post H]; discriminate].
    + rewrite andb_true_iff, Ascii.eqb_eq, IH. split.
      * intros [-> [post ->]]. exists post. reflexivity.
      * intros [post H]. injection H as -> ->. split; [reflexivity | eauto].
Qed.

Lemma includes_substring (s t : string) :
  Str.includes s t = true <-> substring t s.
Proof.
  unfold substring. induction s as [|c s IH]; simpl.
  - rewrite orb_false_r, startsWith_app. split.
    + intros [post H]. exists EmptyString, post. exact H.
    + intros [[|c pre] [post H]]; [eauto | discriminate].
  - rewrite orb_true_iff, startsWith_app, IH. split.
    + intros [[post H] | (pre & post & H)].
      * exists EmptyString, post. exact H.
      * exists (String c pre), post. simpl. now rewrite H.
    + intros [[|c' pre] [post H]].
      * left. exists post. exact H.
      * right. simpl in H. injection H as -> ->. eauto.
Qed.

Lemma lower_char_not_upper (c : ascii) :
  Str.is_upper_ascii (Str.lower_char c) = false.
Proof.
  destruct c as [[] [] [] [] [] [] [] []]; reflexivity.
Qed.

Lemma toLowerCase_no_upper (s : string) :
  has_upper_ascii (Str.toLowerCase s) = false.
Proof.
  induction s as [|c s IH]; simpl; [reflexivity|].
  now rewrite lower_char_not_upper, IH.
Qed.

Lemma has_upper_ascii_app (s t : string) :
  has_upper_ascii (s ++ t)%string = has_upper_ascii s || has_upper_ascii t.
Proof.
  induction s as [|c s IH]; simpl; [reflexivity|].
  now rewrite IH, orb_assoc.
Qed.

(** A lower-cased string contains no string with a capital letter. *)
Lemma includes_upper (s t : string) :
  has_upper_ascii t = true ->
  Str.includes (Str.toLowerCase s) t = false.
Proof.
  intros Ht. destruct (Str.includes (Str.toLowerCase s) t) eqn:Hinc; [|reflexivity].
  apply includes_substring in Hinc. destruct Hinc as (pre & post & H).
  pose proof (toLowerCase_no_upper s) as Hlow.
  rewrite H, !has_upper_ascii_app, Ht, orb_true_r in Hlow. discriminate.
Qed.

(** Splitting at the hour mark. *)

Lemma split_from_no_h (s cur : string) :
  Str.includes s "h" = false -> Str.split_from "h" 0 cur s = [(cur ++ s)%string].
Proof.
  revert cur. induction s as [|c s IH]; intros cur H; simpl.
  - now rewrite append_nil_r.
  - simpl in H. apply orb_false_elim in H. destruct H as [H1 H2].
    rewrite H1, IH by assumption.
    now rewrite <- append_assoc.
Qed.

Lemma split_from_one_h (a b cur : string) :
  Str.includes a "h" = false -> Str.includes b "h" = false ->
  Str.split_from "h" 0 cur (a ++ "h" ++ b)%string = [(cur ++ a)%string; b].
Proof.
  revert cur. induction a as [|c a IH]; intros cur Ha Hb; simpl.
  - rewrite append_nil_r.
    now rewrite (split_from_no_h b EmptyString Hb).
  - simpl in Ha. apply orb_false_elim in Ha. destruct Ha as [H1 H2].
    rewrite H1, IH by assumption.
    now rewrite <- append_assoc.
Qed.

(** [parseInt] in base ten gives [NaN] unless a numeral comes first. *)

Lemma radix_digit_10 (c : ascii) :
  is_decimal_digit c = false -> Str.radix_digit 10 c = None.
Proof.
  destruct c as [[] [] [] [] [] [] [] []]; intros H;
    try reflexivity; discriminate H.
Qed.

Lemma parseInt_no_numeral (s : string) :
  starts_with_numeral s = false -> parseInt s (Some 10%Z) = nan.
Proof.
  unfold starts_with_numeral, parseInt.
  destruct (Str.trimStart s) as [|c rest]; [reflexivity|].
  destruct c as [[] [] [] [] [] [] [] []]; simpl; intros H;
    try reflexivity; try discriminate H;
    (destruct rest as [|d rest']; [reflexivity|]);
    simpl; rewrite (radix_digit_10 d H); reflexivity.
Qed.

End StrFacts.

(** ** Lists *)

Lemma find_none_of {A : Type} (f : A -> bool) (l : list A) :
  (forall x, In x l -> f x = false) -> find f l = None.
Proof.
  induction l as [|a l IH]; intros H; simpl; [reflexivity|].
  rewrite (H a (or_introl eq_refl)). apply IH.
  intros x Hx. apply H. right. exact Hx.
Qed.


(** * The properties of the specification, C1 to C10 *)

Import Examples.

(** ** C1: a [favoriteActors] criterion that matches no cast member *)

(** C1.  The specification asks for a contribution of 0 when no cast
    member matches; the program does not give it.  For every movie and
    every preference set whose [favoriteActors] list matches no entry of
    the cast, the criterion adds [w / 0] to the score, and [w / 0] is [NaN]
    or an infinity, never zero: the division is a division by zero. *)
Theorem favoriteActors_no_match
  (movie : IMovie) (prefs : Preferences) (p : Pref.t (list string))
  (score : float) :
  favoriteActors prefs = Some p ->
  matchingActors movie (Pref.value p) = [] ->
  scoreFavoriteActors movie prefs score = (score + Pref.weight p / 0)%float /\
  (Pref.weight p / 0 = nan \/ Pref.weight p / 0 = infinity
   \/ Pref.weight p / 0 = neg_infinity)%float.
Proof.
  intros Hp Hk. unfold scoreFavoriteActors. rewrite Hp, Hk. split.
  - reflexivity.
  - apply NumberFacts.div_zero.
Qed.

Lemma favoriteActors_no_match_witness :
  scoreFavoriteActors shawshank (preferences hanksFan) 0%float
  = (0 + 1 / 0)%float /\
  (1 / 0 = nan \/ 1 / 0 = infinity \/ 1 / 0 = neg_infinity)%float.
Proof.
  apply (favoriteActors_no_match shawshank (preferences hanksFan)
           (Pref.make ["Tom Hanks"] 1%float) 0%float); reflexivity.
Defined.

(** A voter whose only criterion is [favoriteActors: {value: ["Tom Hanks"],
    weight: 1}] gives the movie the score [Infinity]. *)
Example favoriteActors_no_match_infinity :
  calculateScore shawshank [hanksFan] = infinity.
Proof. reflexivity. Qed.

(** ** C2: [runtimeToMinutes] *)

(** C2, the input with no hour mark: ["45min"] does not give 45. *)
Lemma runtimeToMinutes_45min : runtimeToMinutes "45min" <> 45%float.
Proof. vm_compute. discriminate. Qed.

(** C2, as the program has it.  ["2h 22min"] gives 142 and ["3h"] gives
    180; an input with one hour mark gives sixty times the integer that
    leads the text before the mark plus the integer that leads the text
    after it, each counted as 0 when there is none: the text before the
    mark is the hours, and minutes alone are written after a mark, as in
    ["0h 45min"]. *)
Theorem runtimeToMinutes_spec :
  runtimeToMinutes "2h 22min" = 142%float /\
  runtimeToMinutes "3h" = 180%float /\
  (forall a b : string,
      Str.includes a "h" = false -> Str.includes b "h" = false ->
      runtimeToMinutes (a ++ "h" ++ b)
      = (Number.or_else (parseInt a (Some 10%Z)) 0 * 60
         + Number.or_else (parseInt b (Some 10%Z)) 0)%float).
Proof.
  split; [reflexivity|]. split; [reflexivity|].
  intros a b Ha Hb. unfold runtimeToMinutes, Str.split.
  rewrite (StrFacts.split_from_one_h a b EmptyString Ha Hb). reflexivity.
Qed.

Lemma runtimeToMinutes_spec_witness :
  runtimeToMinutes ("0" ++ "h" ++ " 45min") = 45%float /\
  runtimeToMinutes ("" ++ "h" ++ "45min") = 45%float.
Proof.
  destruct runtimeToMinutes_spec as (_ & _ & Hone). split.
  - rewrite (Hone "0" " 45min"); reflexivity.
  - rewrite (Hone "" "45min"); reflexivity.
Defined.

(** ** C3: a criterion of weight 0 *)

Section NaNAbsorbs.

Variable movie : IMovie.

Lemma scorePreferences_nan (prefs : Preferences) :
  scorePreferences movie prefs nan = nan.
Proof.
  unfold scorePreferences, scoreAfterYear, scoreBeforeYear,
    scoreMaximumAgeRating, scoreShorterThan, scoreFavoriteGenre,
    scoreLeastFavoriteDirector, scoreFavoriteActors,
    scoreFavoritePlotElements, scoreMinimumRottenTomatoesScore.
  repeat match goal with
         | |- context [match ?o with Some _ => _ | None => _ end] =>
             destruct o
         | |- context [if ?b then _ else _] => destruct b
         | |- _ => rewrite NumberFacts.add_nan_l
         | |- _ => rewrite NumberFacts.sub_nan_l
         end; reflexivity.
Qed.

Lemma fold_scorePerson_nan (people : list IPerson) :
  fold_left (scorePerson movie) people nan = nan.
Proof.
  induction people as [|person people IH]; simpl; [reflexivity|].
  unfold scorePerson at 2. now rewrite scorePreferences_nan.
Qed.

(** Once the [favoriteActors] update has made the score [NaN], the
    remaining updates of the iteration leave it so. *)
Lemma scorePreferences_favoriteActors_nan
  (prefs : Preferences) (p : Pref.t (list string)) (score : float) :
  favoriteActors prefs = Some p ->
  (Pref.weight p / length_number (matchingActors movie (Pref.value p)))%float
  = nan ->
  scorePreferences movie prefs score = nan.
Proof.
  intros Hp Hnan. unfold scorePreferences.
  unfold scoreFavoriteActors at 1. rewrite Hp, Hnan, NumberFacts.add_nan_r.
  unfold scoreFavoritePlotElements, scoreMinimumRottenTomatoesScore.
  repeat match goal with
         | |- context [match ?o with Some _ => _ | None => _ end] =>
             destruct o
         | |- context [if ?b then _ else _] => destruct b
         | |- _ => rewrite NumberFacts.add_nan_l
         end; reflexivity.
Qed.

End NaNAbsorbs.

(** C3.  The specification asks for an unchanged score when a criterion
    of weight 0 is added; the program does not keep it for
    [favoriteActors].  For every movie and every roster, giving one voter
    the criterion [favoriteActors] with weight 0 and a list that matches no
    entry of the cast makes the score of the movie [NaN] (the criterion
    adds [0 / 0]); the score changes whenever it was a number before. *)
Theorem zero_weight_favoriteActors_nan
  (movie : IMovie) (before after : list IPerson) (person : IPerson)
  (favorites : list string) :
  matchingActors movie favorites = [] ->
  let person' :=
    withCriterion (FavoriteActors (Pref.make favorites 0%float)) person in
  calculateScore movie (before ++ person' :: after) = nan /\
  (calculateScore movie (before ++ person :: after) <> nan ->
   calculateScore movie (before ++ person' :: after)
   <> calculateScore movie (before ++ person :: after)).
Proof.
  intros Hk person'.
  assert (Hnan : calculateScore movie (before ++ person' :: after) = nan).
  { unfold calculateScore. rewrite fold_left_app. simpl.
    unfold scorePerson at 2.
    rewrite (scorePreferences_favoriteActors_nan movie _
               (Pref.make favorites 0%float)).
    - apply fold_scorePerson_nan.
    - reflexivity.
    - simpl. rewrite Hk. reflexivity. }
  split; [exact Hnan|].
  intros Hnum Heq. apply Hnum. rewrite <- Heq. exact Hnan.
Qed.

Lemma zero_weight_favoriteActors_nan_witness :
  calculateScore shawshank [nobody] = 0%float /\
  calculateScore shawshank
    [withCriterion (FavoriteActors (Pref.make [] 0%float)) nobody]
  = nan.
Proof.
  split; [reflexivity|].
  apply (zero_weight_favoriteActors_nan shawshank [] [] nobody []).
  reflexivity.
Defined.

(** *** The other criteria of weight 0 *)

Section ZeroWeight.

Import NumberFacts.
Local Open Scope float_scope.

Variable movie : IMovie.

Lemma length_number_filter {A : Type} (f : A -> bool) (l : list A) :
  isArray l ->
  Prim2SF (length_number (filter f l)) = S754_zero false \/
  exists m e, Prim2SF (length_number (filter f l)) = S754_finite false m e.
Proof.
  unfold isArray, length_number. intros Hl. apply of_Z_small.
  pose proof (filter_length_le f l).
  assert ((2 ^ 32 < 2 ^ 53)%Z) by reflexivity. lia.
Qed.

Section Steps.

Variable prefs : Preferences.

Ltac step_nz :=
  intros Hs;
  repeat match goal with
         | |- context [match ?o with Some _ => _ | None => _ end] => destruct o
         | |- context [if ?b then _ else _] => destruct b
         end;
  auto using add_not_neg_zero, sub_not_neg_zero.

Lemma scoreAfterYear_nz s :
  s <> neg_zero -> scoreAfterYear movie prefs s <> neg_zero.
Proof. unfold scoreAfterYear. step_nz. Qed.

Lemma scoreBeforeYear_nz s :
  s <> neg_zero -> scoreBeforeYear movie prefs s <> neg_zero.
Proof. unfold scoreBeforeYear. step_nz. Qed.

Lemma scoreMaximumAgeRating_nz s :
  s <> neg_zero -> scoreMaximumAgeRating movie prefs s <> neg_zero.
Proof. unfold scoreMaximumAgeRating. step_nz. Qed.

Lemma scoreShorterThan_nz s :
  s <> neg_zero -> scoreShorterThan movie prefs s <> neg_zero.
Proof. unfold scoreShorterThan. step_nz. Qed.

Lemma scoreFavoriteGenre_nz s :
  s <> neg_zero -> scoreFavoriteGenre movie prefs s <> neg_zero.
Proof. unfold scoreFavoriteGenre. step_nz. Qed.

Lemma scoreLeastFavoriteDirector_nz s :
  s <> neg_zero -> scoreLeastFavoriteDirector movie prefs s <> neg_zero.
Proof. unfold scoreLeastFavoriteDirector. step_nz. Qed.

Lemma scoreFavoriteActors_nz s :
  s <> neg_zero -> scoreFavoriteActors movie prefs s <> neg_zero.
Proof. unfold scoreFavoriteActors. step_nz. Qed.

Lemma scoreFavoritePlotElements_nz s :
  s <> neg_zero -> scoreFavoritePlotElements movie prefs s <> neg_zero.
Proof. unfold scoreFavoritePlotElements. step_nz. Qed.

Lemma scoreMinimumRottenTomatoesScore_nz s :
  s <> neg_zero -> scoreMinimumRottenTomatoesScore movie prefs s <> neg_zero.
Proof. unfold scoreMinimumRottenTomatoesScore. step_nz. Qed.

Lemma scorePreferences_nz s :
  s <> neg_zero -> scorePreferences movie prefs s <> neg_zero.
Proof.
  intros Hs. unfold scorePreferences.
  auto 12 using scoreAfterYear_nz, scoreBeforeYear_nz,
    scoreMaximumAgeRating_nz, scoreShorterThan_nz, scoreFavoriteGenre_nz,
    scoreLeastFavoriteDirector_nz, scoreFavoriteActors_nz,
    scoreFavoritePlotElements_nz, scoreMinimumRottenTomatoesScore_nz.
Qed.

End Steps.

Lemma fold_scorePerson_nz (people : list IPerson) (s : float) :
  s <> neg_zero -> fold_left (scorePerson movie) people s <> neg_zero.
Proof.
  revert s. induction people as [|person people IH]; intros s Hs; simpl.
  - exact Hs.
  - apply IH. apply scorePreferences_nz, Hs.
Qed.

End ZeroWeight.

Section ZeroWeightUnchanged.

Import NumberFacts.
Local Open Scope float_scope.

Variable movie : IMovie.
Variable prefs : Preferences.
Variable c : Criterion.
Hypothesis c_absent : absent c prefs.
Hypothesis c_weight : weightOf c = 0.
Hypothesis c_actors :
  forall p, c = FavoriteActors p ->
            matchingActors movie (Pref.value p) <> []
            /\ isArray (Str.split (actors movie) ", ").
Hypothesis c_elements :
  forall p, c = FavoritePlotElements p -> isArray (Pref.value p).

Ltac same_guard :=
  repeat match goal with
         | |- context [if ?b then _ else _] => destruct b
         end;
  auto using add_zero_r, sub_zero_r.

Lemma scoreAfterYear_add s :
  s <> neg_zero ->
  scoreAfterYear movie (addCriterion c prefs) s = scoreAfterYear movie prefs s.
Proof.
  intros Hs. unfold scoreAfterYear.
  destruct c as [[v w]| | | | | | | |]; try reflexivity.
  simpl in *. rewrite c_absent. subst w. same_guard.
Qed.

Lemma scoreBeforeYear_add s :
  s <> neg_zero ->
  scoreBeforeYear movie (addCriterion c prefs) s = scoreBeforeYear movie prefs s.
Proof.
  intros Hs. unfold scoreBeforeYear.
  destruct c as [|[v w]| | | | | | |]; try reflexivity.
  simpl in *. rewrite c_absent. subst w. same_guard.
Qed.

Lemma scoreMaximumAgeRating_add s :
  s <> neg_zero ->
  scoreMaximumAgeRating movie (addCriterion c prefs) s
  = scoreMaximumAgeRating movie prefs s.
Proof.
  intros Hs. unfold scoreMaximumAgeRating.
  destruct c as [| |[v w]| | | | | |]; try reflexivity.
  simpl in *. rewrite c_absent. subst w. same_guard.
Qed.

Lemma scoreShorterThan_add s :
  s <> neg_zero ->
  scoreShorterThan movie (addCriterion c prefs) s
  = scoreShorterThan movie prefs s.
Proof.
  intros Hs. unfold scoreShorterThan.
  destruct c as [| | |[v w]| | | | |]; try reflexivity.
  simpl in *. rewrite c_absent. subst w. same_guard.
Qed.

Lemma scoreFavoriteGenre_add s :
  s <> neg_zero ->
  scoreFavoriteGenre movie (addCriterion c prefs) s
  = scoreFavoriteGenre movie prefs s.
Proof.
  intros Hs. unfold scoreFavoriteGenre.
  destruct c as [| | | |[v w]| | | |]; try reflexivity.
  simpl in *. rewrite c_absent. subst w. same_guard.
Qed.

Lemma scoreLeastFavoriteDirector_add s :
  scoreLeastFavoriteDirector movie (addCriterion c prefs) s
  = scoreLeastFavoriteDirector movie prefs s.
Proof.
  unfold scoreLeastFavoriteDirector.
  destruct c as [| | | | |[v w]| | |]; try reflexivity.
  simpl in *. rewrite c_absent. subst w. same_guard.
Qed.

Lemma scoreFavoriteActors_add s :
  s <> neg_zero ->
  scoreFavoriteActors movie (addCriterion c prefs) s
  = scoreFavoriteActors movie prefs s.
Proof.
  intros Hs. unfold scoreFavoriteActors.
  destruct c as [| | | | | |[v w]| |]; try reflexivity.
  simpl in *. rewrite c_absent. subst w.
  destruct (c_actors _ eq_refl) as [Hne Harr]. simpl in Hne.
  rewrite div_zero_l; [apply add_zero_r, Hs|].
  unfold length_number. apply of_Z_pos.
  pose proof (filter_length_le (fun actor => includes v actor)
                (Str.split (actors movie) ", ")) as Hle.
  unfold matchingActors in *. unfold isArray in Harr.
  destruct (filter _ _) as [|a l]; [congruence|].
  assert ((2 ^ 32 < 2 ^ 53)%Z) by reflexivity. simpl List.length in *. lia.
Qed.

Lemma scoreFavoritePlotElements_add s :
  s <> neg_zero ->
  scoreFavoritePlotElements movie (addCriterion c prefs) s
  = scoreFavoritePlotElements movie prefs s.
Proof.
  intros Hs. unfold scoreFavoritePlotElements.
  destruct c as [| | | | | | |[v w]|]; try reflexivity.
  simpl in *. rewrite c_absent. subst w.
  rewrite mul_zero_r; [apply add_zero_r, Hs|].
  apply length_number_filter, (c_elements _ eq_refl).
Qed.

Lemma scoreMinimumRottenTomatoesScore_add s :
  s <> neg_zero ->
  scoreMinimumRottenTomatoesScore movie (addCriterion c prefs) s
  = scoreMinimumRottenTomatoesScore movie prefs s.
Proof.
  intros Hs. unfold scoreMinimumRottenTomatoesScore.
  destruct c as [| | | | | | | |[v w]]; try reflexivity.
  simpl in *. rewrite c_absent. subst w. same_guard.
Qed.

Lemma scorePreferences_add s :
  s <> neg_zero ->
  scorePreferences movie (addCriterion c prefs) s
  = scorePreferences movie prefs s.
Proof.
  intros Hs. unfold scorePreferences.
  rewrite scoreAfterYear_add by assumption.
  pose proof (scoreAfterYear_nz movie prefs _ Hs) as H1.
  rewrite scoreBeforeYear_add by assumption.
  pose proof (scoreBeforeYear_nz movie prefs _ H1) as H2.
  rewrite scoreMaximumAgeRating_add by assumption.
  pose proof (scoreMaximumAgeRating_nz movie prefs _ H2) as H3.
  rewrite scoreShorterThan_add by assumption.
  pose proof (scoreShorterThan_nz movie prefs _ H3) as H4.
  rewrite scoreFavoriteGenre_add by assumption.
  pose proof (scoreFavoriteGenre_nz movie prefs _ H4) as H5.
  rewrite scoreLeastFavoriteDirector_add.
  pose proof (scoreLeastFavoriteDirector_nz movie prefs _ H5) as H6.
  rewrite scoreFavoriteActors_add by assumption.
  pose proof (scoreFavoriteActors_nz movie prefs _ H6) as H7.
  rewrite scoreFavoritePlotElements_add by assumption.
  pose proof (scoreFavoritePlotElements_nz movie prefs _ H7) as H8.
  rewrite scoreMinimumRottenTomatoesScore_add by assumption.
  reflexivity.
Qed.

End ZeroWeightUnchanged.

(** The score is unchanged by a criterion of weight 0 of a kind the voter
    did not have, of every kind but [favoriteActors] without a match: the
    running score is never [-0], so adding [+0] to it, or [k * 0], or
    [0 / k] for a match count [k >= 1], leaves it as it is. *)
Lemma zero_weight_unchanged
  (movie : IMovie) (before after : list IPerson) (person : IPerson)
  (c : Criterion) :
  absent c (preferences person) ->
  weightOf c = 0%float ->
  (forall p, c = FavoriteActors p ->
             matchingActors movie (Pref.value p) <> []
             /\ isArray (Str.split (actors movie) ", ")) ->
  (forall p, c = FavoritePlotElements p -> isArray (Pref.value p)) ->
  calculateScore movie (before ++ withCriterion c person :: after)
  = calculateScore movie (before ++ person :: after).
Proof.
  intros Habs Hw Hact Hel. unfold calculateScore.
  rewrite !fold_left_app. simpl. f_equal.
  unfold scorePerson at 1 3. unfold withCriterion. simpl preferences.
  apply scorePreferences_add; try assumption.
  apply fold_scorePerson_nz. vm_compute. discriminate.
Qed.

(** ** C4: a movie without a Rotten Tomatoes rating *)

(** C4.  For every movie with no rating whose source is exactly
    ["Rotten Tomatoes"], [getRottenTomatoesScore] is [0]; a
    [minimumRottenTomatoesScore] criterion on such a movie is compared
    against that [0]: it adds its weight to the score exactly when its
    target value is [<= 0], and leaves the score as it is otherwise. *)
Theorem getRottenTomatoesScore_missing (movie : IMovie) :
  noRottenTomatoes movie ->
  getRottenTomatoesScore movie = 0%float /\
  forall (prefs : Preferences) (p : Pref.t float) (score : float),
    minimumRottenTomatoesScore prefs = Some p ->
    scoreMinimumRottenTomatoesScore movie prefs score
    = if PrimFloat.leb (Pref.value p) 0
      then (score + Pref.weight p)%float
      else score.
Proof.
  intros Hno.
  assert (H0 : getRottenTomatoesScore movie = 0%float).
  { unfold getRottenTomatoesScore. rewrite find_none_of; [reflexivity|].
    intros r Hr. apply String.eqb_neq, Hno, Hr. }
  split; [exact H0|].
  intros prefs p score Hp. unfold scoreMinimumRottenTomatoesScore.
  rewrite Hp, H0. reflexivity.
Qed.

Lemma getRottenTomatoesScore_missing_witness :
  getRottenTomatoesScore first = 0%float /\
  forall (prefs : Preferences) (p : Pref.t float) (score : float),
    minimumRottenTomatoesScore prefs = Some p ->
    scoreMinimumRottenTomatoesScore first prefs score
    = if PrimFloat.leb (Pref.value p) 0
      then (score + Pref.weight p)%float
      else score.
Proof.
  apply (getRottenTomatoesScore_missing first).
  intros r Hr. simpl in Hr. contradiction.
Defined.

(** A rating from another source, or with another spelling of the source,
    does not count; a target of 0 is then met, a target of 1 is not. *)
Example getRottenTomatoesScore_other_source :
  let movie := ratingsMovie [Rating.make "Metacritic" "80/100";
                             Rating.make "rotten tomatoes" "91%"] in
  getRottenTomatoesScore movie = 0%float /\
  calculateScore movie [voter (minimumRottenTomatoesScoreOnly 0 3)] = 3%float /\
  calculateScore movie [voter (minimumRottenTomatoesScoreOnly 1 3)] = 0%float.
Proof. repeat split. Qed.

(** ** C5: the worked example *)

(** C5.  The movie of the example (whatever its identifier and title),
    scored by one voter (whatever the name) whose only preferences are
    [afterYear {value: 1990, weight: 5}] and
    [minimumRottenTomatoesScore {value: 90, weight: 3}], gets exactly 8. *)
Theorem example_score_is_8 (imdbID title name : string) :
  calculateScore (shawshankWith imdbID title)
    [{| name := name; preferences := modernAndAcclaimed |}]
  = 8%float.
Proof. reflexivity. Qed.

(** ** C6: [rankMovies] *)

Lemma rankMovies_perm (movies : list IMovie) (people : list IPerson) :
  Permutation (map (scored people) movies) (rankMovies movies people).
Proof. unfold rankMovies. apply sort_perm. Qed.

Lemma rankMovies_descending (movies : list IMovie) (people : list IPerson) :
  Forall (fun movie => calculateScore movie people <> nan) movies ->
  descending (rankMovies movies people).
Proof.
  intros Hok. unfold descending, rankMovies.
  apply sort_sorted with (ok := fun a => score a <> nan).
  - intros a b Ha Hb Hcmp. rewrite NumberFacts.sub_gt_0 in Hcmp.
    apply NumberFacts.not_lt_ge; assumption.
  - intros a b Ha Hb Hcmp. rewrite NumberFacts.sub_gt_0 in Hcmp.
    apply NumberFacts.lt_le, Hcmp.
  - apply Forall_map. exact Hok.
Qed.

(** C6, the order: with a score that is [NaN] the ranking is not in
    descending order.  Here the scores are 1, [NaN] and 2; the
    comparison function answers [NaN] next to the second movie, nothing
    moves, and the movie with score 1 stays ahead of the one with score 2. *)
Lemma rankMovies_not_descending :
  rankMovies [first; second; third] jury
  = [ {| id := "tt0000001"; score := 1 |};
      {| id := "tt0000002"; score := nan |};
      {| id := "tt0000003"; score := 2 |} ]
  /\ ~ descending (rankMovies [first; second; third] jury).
Proof.
  assert (H : rankMovies [first; second; third] jury
              = [ {| id := "tt0000001"; score := 1 |};
                  {| id := "tt0000002"; score := nan |};
                  {| id := "tt0000003"; score := 2 |} ])
    by (vm_compute; reflexivity).
  split; [exact H|]. rewrite H. unfold descending. intros Hs.
  inversion Hs as [|? ? _ Hhd]; subst.
  inversion Hhd as [|? ? Hge]; subst.
  vm_compute in Hge. discriminate.
Qed.

(** C6, as the program has it.  For every list of movies and every
    roster the ranking holds exactly the scored movies of the input, one
    per input movie, duplicates kept: the lengths agree and the
    identifiers are those of the input with their multiplicities.  The
    ranking is in descending order of score whenever no score is [NaN].
    Three movies that score 10, -4 and 0 are ranked first, third,
    second. *)
Theorem rankMovies_spec (movies : list IMovie) (people : list IPerson) :
  Permutation (rankMovies movies people) (map (scored people) movies) /\
  List.length (rankMovies movies people) = List.length movies /\
  Permutation (map id (rankMovies movies people)) (map imdbID movies) /\
  (Forall (fun movie => calculateScore movie people <> nan) movies ->
   descending (rankMovies movies people)) /\
  (forall m1 m2 m3 : IMovie,
      movies = [m1; m2; m3] ->
      calculateScore m1 people = 10%float ->
      calculateScore m2 people = (-4)%float ->
      calculateScore m3 people = 0%float ->
      rankMovies movies people
      = [ {| id := imdbID m1; score := 10 |};
          {| id := imdbID m3; score := 0 |};
          {| id := imdbID m2; score := (-4) |} ]).
Proof.
  pose proof (rankMovies_perm movies people) as Hperm.
  split; [apply Permutation_sym, Hperm|].
  split.
  { rewrite <- (Permutation_length Hperm). apply length_map. }
  split.
  { apply Permutation_sym.
    apply perm_trans with (map id (map (scored people) movies)).
    - rewrite map_map. simpl. apply Permutation_refl.
    - apply Permutation_map, Hperm. }
  split; [apply rankMovies_descending|].
  intros m1 m2 m3 -> H1 H2 H3. unfold rankMovies. simpl map.
  rewrite H1, H2, H3. reflexivity.
Qed.

(** The three movies that score 10, -4 and 0. *)
Lemma rankMovies_spec_witness :
  descending (rankMovies [recent; disliked; plain] critics) /\
  rankMovies [recent; disliked; plain] critics
  = [ {| id := "tt0000010"; score := 10 |};
      {| id := "tt0000012"; score := 0 |};
      {| id := "tt0000011"; score := (-4) |} ].
Proof.
  destruct (rankMovies_spec [recent; disliked; plain] critics)
    as (_ & _ & _ & Hdesc & Hthree).
  split.
  - apply Hdesc. repeat constructor; vm_compute; discriminate.
  - apply (Hthree recent disliked plain); reflexivity.
Defined.

(** ** C7: the voters' shares of a score *)

Lemma scorePreferences_contributions
  (movie : IMovie) (person : IPerson) (score : float) :
  scorePerson movie score person
  = fold_left PrimFloat.add (contributions movie person) score.
Proof.
  unfold scorePerson, scorePreferences, contributions,
    scoreAfterYear, scoreBeforeYear, scoreMaximumAgeRating, scoreShorterThan,
    scoreFavoriteGenre, scoreLeastFavoriteDirector, scoreFavoriteActors,
    scoreFavoritePlotElements, scoreMinimumRottenTomatoesScore.
  rewrite !fold_left_app.
  repeat match goal with
         | |- context [match ?o with Some _ => _ | None => _ end] =>
             destruct o
         | |- context [if ?b then _ else _] => destruct b
         end; simpl; rewrite ?NumberFacts.sub_add_opp; reflexivity.
Qed.

(** C7, the sum: with the weights 0.1 for one voter and 0.2 and 0.3 for
    another, the score of the roster is 0.6000000000000001 and the sum of
    the two voters' own scores, 0.1 and 0.5, is 0.6. *)
Lemma score_not_sum_of_voter_scores :
  calculateScore shawshank [alice; bob] <> sumOfVoterScores shawshank [alice; bob].
Proof. vm_compute. discriminate. Qed.

(** C7, as the program has it.  The score of a movie for the empty
    roster is 0.  For every movie and roster the score is the
    left-to-right double sum, from 0, of the voters' contributions in
    roster order, where the contributions of a voter depend on the movie
    and on that voter alone; and the score of a roster continues, voter by
    voter, from the score of any initial part of it. *)
Theorem calculateScore_by_voter (movie : IMovie) (people : list IPerson) :
  calculateScore movie [] = 0%float /\
  calculateScore movie people
  = fold_left PrimFloat.add (flat_map (contributions movie) people) 0%float /\
  forall people' : list IPerson,
    calculateScore movie (people ++ people')
    = fold_left PrimFloat.add (flat_map (contributions movie) people')
        (calculateScore movie people).
Proof.
  assert (H : forall l start,
             fold_left (scorePerson movie) l start
             = fold_left PrimFloat.add (flat_map (contributions movie) l) start).
  { induction l as [|person l IH]; intros start; simpl; [reflexivity|].
    rewrite fold_left_app, IH, scorePreferences_contributions. reflexivity. }
  split; [reflexivity|]. split.
  - apply H.
  - intros people'. unfold calculateScore. rewrite fold_left_app. apply H.
Qed.

(** ** C8: [maximumAgeRating] *)

(** C8.  For every movie and every preference set with a
    [maximumAgeRating] criterion of target [t] and weight [w], the
    criterion adds [w] to the score exactly when the movie's [rated]
    string is at most [t] in the lexicographic order of strings by code
    unit, and leaves the score as it is otherwise; no scale of ratings is
    consulted. *)
Theorem maximumAgeRating_lexicographic
  (movie : IMovie) (prefs : Preferences) (p : Pref.t string) (score : float) :
  maximumAgeRating prefs = Some p ->
  (lex_le (rated movie) (Pref.value p) ->
   scoreMaximumAgeRating movie prefs score = (score + Pref.weight p)%float) /\
  (~ lex_le (rated movie) (Pref.value p) ->
   scoreMaximumAgeRating movie prefs score = score).
Proof.
  intros Hp. unfold scoreMaximumAgeRating. rewrite Hp.
  pose proof (StrFacts.le_lex_le (rated movie) (Pref.value p)) as Hle.
  destruct (Str.le (rated movie) (Pref.value p)); split; intros H.
  - reflexivity.
  - exfalso. apply H, Hle. reflexivity.
  - apply Hle in H. discriminate.
  - reflexivity.
Qed.

(** The order is that of the strings, not of the ratings: ["NC-17"]
    passes the limit ["PG"], since [N] comes before [P]. *)
Lemma maximumAgeRating_lexicographic_witness :
  scoreMaximumAgeRating (ratedMovie "NC-17") (maximumAgeRatingOnly "PG" 2)
    0%float
  = 2%float.
Proof.
  apply (maximumAgeRating_lexicographic (ratedMovie "NC-17")
           (maximumAgeRatingOnly "PG" 2) (Pref.make "PG" 2%float) 0%float
           eq_refl).
  apply lex_le_less. reflexivity.
Defined.

(** For the ratings in use the order of the strings is that of the
    scale at some places only: ["PG-13" <= "R"] and ["G" <= "PG"] hold,
    and so does ["R" <= "TV-14"]. *)
Example rated_strings_order :
  Str.le "G" "PG" = true /\ Str.le "PG-13" "R" = true /\
  Str.le "R" "PG-13" = false /\ Str.le "R" "TV-14" = true.
Proof. repeat split. Qed.

(** ** C9: [favoriteGenre] *)

(** C9.  Only the movie's genre is put in lower case, the target is taken
    as given: for every movie and every preference set with a
    [favoriteGenre] criterion, the criterion adds its weight exactly when
    the target occurs as a substring of the lower-cased genre, and leaves
    the score as it is otherwise; hence a target with a letter among
    [A]-[Z] never adds anything. *)
Theorem favoriteGenre_target_not_folded
  (movie : IMovie) (prefs : Preferences) (p : Pref.t string) (score : float) :
  favoriteGenre prefs = Some p ->
  (substring (Pref.value p) (Str.toLowerCase (genre movie)) ->
   scoreFavoriteGenre movie prefs score = (score + Pref.weight p)%float) /\
  (~ substring (Pref.value p) (Str.toLowerCase (genre movie)) ->
   scoreFavoriteGenre movie prefs score = score) /\
  (has_upper_ascii (Pref.value p) = true ->
   scoreFavoriteGenre movie prefs score = score).
Proof.
  intros Hp. unfold scoreFavoriteGenre. rewrite Hp.
  pose proof (StrFacts.includes_substring
                (Str.toLowerCase (genre movie)) (Pref.value p)) as Hsub.
  pose proof (StrFacts.includes_upper (genre movie) (Pref.value p)) as Hup.
  destruct (Str.includes (Str.toLowerCase (genre movie)) (Pref.value p)).
  - split; [reflexivity|]. split.
    + intros H. exfalso. apply H, Hsub. reflexivity.
    + intros H. apply Hup in H. discriminate.
  - split; [|split; reflexivity].
    intros H. apply Hsub in H. discriminate.
Qed.

(** The genre ["Drama"] against the target ["Drama"]: not satisfied. *)
Lemma favoriteGenre_target_not_folded_witness :
  scoreFavoriteGenre shawshank (favoriteGenreOnly "Drama" 4) 0%float = 0%float.
Proof.
  apply (favoriteGenre_target_not_folded shawshank
           (favoriteGenreOnly "Drama" 4) (Pref.make "Drama" 4%float) 0%float
           eq_refl).
  reflexivity.
Defined.

(** The same voter with the target ["drama"] is satisfied. *)
Example favoriteGenre_lower_case_target :
  scoreFavoriteGenre shawshank (favoriteGenreOnly "drama" 4) 0%float = 4%float.
Proof. reflexivity. Qed.

(** ** C10: a Rotten Tomatoes rating that is not a number *)

(** C10, the value that begins with a percent sign: ["%91"] begins with
    no numeral, yet with its [%] removed it is read as 91, and a voter who
    asks for 90 is satisfied and adds the weight 3. *)
Lemma rating_percent_first_satisfies :
  starts_with_numeral "%91" = false /\
  getRottenTomatoesScore (ratingsMovie [Rating.make "Rotten Tomatoes" "%91"])
  = 91%float /\
  scoreMinimumRottenTomatoesScore
    (ratingsMovie [Rating.make "Rotten Tomatoes" "%91"])
    (minimumRottenTomatoesScoreOnly 90 3) 0%float
  = 3%float /\
  scoreMinimumRottenTomatoesScore
    (ratingsMovie [Rating.make "Rotten Tomatoes" "%91"])
    (minimumRottenTomatoesScoreOnly 90 3) 0%float
  <> 0%float.
Proof.
  split; [reflexivity|]. split; [reflexivity|]. split; [reflexivity|].
  vm_compute. discriminate.
Qed.

(** C10, as the program has it.  For every movie whose first rating from
    ["Rotten Tomatoes"] has a value that, once its first [%] is removed,
    does not begin with a numeral (such as ["N/A"]), the extracted score
    is [NaN]; a [minimumRottenTomatoesScore] criterion is then not
    satisfied whatever its target, and leaves the score as it is.  Nothing
    fails: the functions are total. *)
Theorem unparsed_rating_never_satisfies
  (movie : IMovie) (rating : Rating.t) :
  find (fun r => String.eqb (Rating.source r) "Rotten Tomatoes")
       (ratings movie) = Some rating ->
  starts_with_numeral (Str.replace "%" "" (Rating.value rating)) = false ->
  getRottenTomatoesScore movie = nan /\
  forall (prefs : Preferences) (score : float),
    scoreMinimumRottenTomatoesScore movie prefs score = score.
Proof.
  intros Hfind Hnum.
  assert (Hnan : getRottenTomatoesScore movie = nan).
  { unfold getRottenTomatoesScore. rewrite Hfind.
    apply StrFacts.parseInt_no_numeral, Hnum. }
  split; [exact Hnan|].
  intros prefs score. unfold scoreMinimumRottenTomatoesScore.
  rewrite Hnan. destruct (minimumRottenTomatoesScore prefs) as [p|];
    [|reflexivity].
  rewrite NumberFacts.ge_nan_l. reflexivity.
Qed.

Lemma unparsed_rating_never_satisfies_witness :
  getRottenTomatoesScore
    (ratingsMovie [Rating.make "Internet Movie Database" "9.3/10";
                   Rating.make "Rotten Tomatoes" "N/A"]) = nan /\
  forall (prefs : Preferences) (score : float),
    scoreMinimumRottenTomatoesScore
      (ratingsMovie [Rating.make "Internet Movie Database" "9.3/10";
                     Rating.make "Rotten Tomatoes" "N/A"]) prefs score
    = score.
Proof.
  apply (unparsed_rating_never_satisfies
           (ratingsMovie [Rating.make "Internet Movie Database" "9.3/10";
                          Rating.make "Rotten Tomatoes" "N/A"])
           (Rating.make "Rotten Tomatoes" "N/A")); reflexivity.
Defined.

(** A rating of ["91%"] is read as 91, and a voter who asks for 90 is
    satisfied. *)
Example parsed_rating :
  getRottenTomatoesScore (ratingsMovie [Rating.make "Rotten Tomatoes" "91%"])
  = 91%float /\
  calculateScore (ratingsMovie [Rating.make "Rotten Tomatoes" "91%"])
    [voter (minimumRottenTomatoesScoreOnly 90 3)] = 3%float.
Proof. split; reflexivity. Qed.

(** * Further properties of the program *)

(** ** The order of doubles *)

Module Binary64Order.

Import Binary64.
Local Open Scope Z_scope.

Lemma bounded_exponent (m : positive) (e : Z) :
  bounded prec emax m e = true -> e <= 971.
Proof.
  unfold bounded. intros H. apply andb_prop in H. destruct H as [_ H].
  apply Z.leb_le in H. exact H.
Qed.

Lemma ord_finite_bounds (m : positive) (e : Z) :
  bounded prec emax m e = true ->
  0 < Zpos m * 2 ^ (e + 1074) < 2 ^ 2098.
Proof.
  intros Hb. destruct (bounded_inv m e Hb) as (He & Hm & _).
  pose proof (bounded_exponent m e Hb) as He'.
  assert (Hp : 0 < 2 ^ (e + 1074)) by (apply Z.pow_pos_nonneg; lia).
  assert (Hq : 2 ^ (e + 1074) <= 2 ^ 2045) by (apply Z.pow_le_mono_r; lia).
  split; [lia|].
  apply Z.lt_le_trans with (2 ^ 53 * 2 ^ (e + 1074)).
  - apply Z.mul_lt_mono_pos_r; assumption.
  - replace (2 ^ 2098) with (2 ^ 53 * 2 ^ 2045)
      by (rewrite <- Z.pow_add_r by lia; reflexivity).
    apply Z.mul_le_mono_nonneg_l; [lia | assumption].
Qed.

Lemma ord_aligned (m : positive) (e ez : Z) :
  -1074 <= ez <= e ->
  Zpos m * 2 ^ (e + 1074) = Zpos m * 2 ^ (e - ez) * 2 ^ (ez + 1074).
Proof.
  intros H. rewrite <- Z.mul_assoc, <- Z.pow_add_r by lia.
  do 2 f_equal. lia.
Qed.

Lemma finite_compare_ord (mx : positive) (ex : Z) (my : positive) (ey : Z) :
  bounded prec emax mx ex = true -> bounded prec emax my ey = true ->
  (Zpos mx * 2 ^ (ex + 1074) ?= Zpos my * 2 ^ (ey + 1074)) =
  match ex ?= ey with
  | Eq => Pos.compare_cont Eq mx my
  | c => c
  end.
Proof.
  intros Hx Hy. rewrite <- (aligned_compare mx ex my ey Hx Hy).
  destruct (bounded_inv _ _ Hx) as (Hex & _).
  destruct (bounded_inv _ _ Hy) as (Hey & _).
  rewrite (ord_aligned mx ex (Z.min ex ey)) by lia.
  rewrite (ord_aligned my ey (Z.min ex ey)) by lia.
  symmetry. apply Zmult_compare_compat_r.
  apply Z.lt_gt, Z.pow_pos_nonneg; lia.
Qed.

Ltac by_places :=
  match goal with
  | |- Some _ = Some (?a ?= ?b) =>
      destruct (Z.compare_spec a b); try reflexivity; exfalso; lia
  end.

(** On doubles other than [NaN] the comparison is that of their places. *)
Lemma SFcompare_ord (x y : spec_float) :
  valid_binary x = true -> valid_binary y = true ->
  x <> S754_nan -> y <> S754_nan ->
  SFcompare x y = Some (ord x ?= ord y).
Proof.
  intros Hx Hy Nx Ny.
  destruct x as [sx|sx| |sx mx ex], y as [sy|sy| |sy my ey];
    try congruence; simpl in Hx, Hy;
    try pose proof (ord_finite_bounds mx ex Hx) as Bx;
    try pose proof (ord_finite_bounds my ey Hy) as By;
    try (destruct sx; reflexivity); try (destruct sy; reflexivity);
    try (destruct sx, sy; reflexivity).
  - unfold SFcompare, ord. destruct sy; unfold cond_Zopp; by_places.
  - unfold SFcompare, ord. destruct sx, sy; unfold cond_Zopp; by_places.
  - unfold SFcompare, ord. destruct sx; unfold cond_Zopp; by_places.
  - unfold SFcompare, ord. destruct sx, sy; unfold cond_Zopp; by_places.
  - pose proof (finite_compare_ord mx ex my ey Hx Hy) as Hc.
    unfold SFcompare, ord.
    change (PosDef.Pos.compare_cont Eq mx my) with (Pos.compare_cont Eq mx my).
    destruct sx, sy; unfold cond_Zopp; try by_places; f_equal.
    + rewrite Z.compare_opp.
      rewrite (Z.compare_antisym (Zpos mx * 2 ^ (ex + 1074))), Hc.
      destruct (ex ?= ey); reflexivity.
    + rewrite Hc. destruct (ex ?= ey); reflexivity.
Qed.

(** The double of an integer below [2 ^ 53] in absolute value is exact. *)
Lemma binary_round_small (sx : bool) (p : positive) :
  Zpos p < 2 ^ 53 ->
  exists m e, binary_round sx p 0 = S754_finite sx m e
              /\ bounded prec emax m e = true
              /\ Zpos m * 2 ^ (e + 1074) = Zpos p * 2 ^ 1074.
Proof.
  intros Hp. pose proof (digits2_lower p) as Hlow.
  set (d := Zpos (digits2_pos p)) in *.
  assert (Hd : 1 <= d <= 53).
  { split; [unfold d; lia|].
    destruct (Z_le_gt_dec d 53) as [|Hgt]; [assumption|exfalso].
    assert (2 ^ 53 <= 2 ^ (d - 1)) by (apply Z.pow_le_mono_r; lia). lia. }
  unfold SpecFloat.binary_round.
  fold d. rewrite fexp_eq, Z.add_0_r.
  replace (Z.max (d - 53) (-1074)) with (d - 53) by lia.
  pose proof (shl_align_value p 0 (d - 53) ltac:(lia)) as Hval.
  assert (Hal : exists mz, shl_align p 0 (d - 53) = (mz, d - 53)
                           /\ Zpos (digits2_pos mz) = 53).
  { unfold shl_align. destruct (d - 53 - 0) as [|q|q] eqn:Hq; try lia.
    - exists p. split; [f_equal; lia | fold d; lia].
    - exists (Pos.iter xO p q). split; [reflexivity|].
      rewrite digits2_iter_xO, Pos2Z.inj_add. fold d. lia. }
  destruct Hal as (mz & Hal & Hmz). rewrite Hal in *. simpl fst in Hval.
  exists mz, (d - 53).
  assert (Hcan : fexp (Zpos (digits2_pos mz) + (d - 53)) = d - 53)
    by (rewrite fexp_eq, Hmz; lia).
  unfold SpecFloat.binary_round_aux.
  rewrite (shr_fexp_canonical (Zpos mz) (d - 53) loc_Exact Hcan).
  cbn [shr_record_of_loc loc_of_shr_record round_nearest_even shr_m].
  rewrite (shr_fexp_canonical (Zpos mz) (d - 53) loc_Exact Hcan).
  cbn [shr_record_of_loc shr_m].
  assert (Hle : (d - 53 <=? emax - prec) = true)
    by (apply Z.leb_le; change (emax - prec) with 971; lia).
  rewrite Hle. split; [reflexivity|]. split.
  - unfold bounded, canonical_mantissa. rewrite Hcan, Z.eqb_refl, Hle.
    reflexivity.
  - rewrite Hval, <- Z.mul_assoc, <- Z.pow_add_r by lia.
    do 2 f_equal. lia.
Qed.

End Binary64Order.

Module NumberOrder.

Import NumberFacts.
Local Open Scope float_scope.

Lemma compare_place (x y : float) :
  x <> nan -> y <> nan ->
  SFcompare (Prim2SF x) (Prim2SF y) = Some (place x ?= place y)%Z.
Proof.
  intros Hx Hy. apply Binary64Order.SFcompare_ord;
    auto using Prim2SF_valid, not_nan_Prim2SF.
Qed.

Lemma lt_place (x y : float) :
  x <> nan -> y <> nan -> Number.lt x y = (place x <? place y)%Z.
Proof.
  intros Hx Hy. unfold Number.lt. rewrite ltb_spec. unfold SFltb.
  rewrite (compare_place x y Hx Hy). unfold Z.ltb.
  destruct (place x ?= place y)%Z; reflexivity.
Qed.

Lemma ge_place (x y : float) :
  x <> nan -> y <> nan -> Number.ge x y = (place y <=? place x)%Z.
Proof.
  intros Hx Hy. unfold Number.ge. rewrite leb_spec. unfold SFleb.
  rewrite (compare_place y x Hy Hx). unfold Z.leb.
  destruct (place y ?= place x)%Z; reflexivity.
Qed.

Lemma eqb_place (x y : float) :
  x <> nan -> y <> nan -> PrimFloat.eqb x y = (place x =? place y)%Z.
Proof.
  intros Hx Hy. rewrite eqb_spec. unfold SFeqb.
  rewrite (compare_place x y Hx Hy).
  destruct (Z.compare_spec (place x) (place y));
    destruct (Z.eqb_spec (place x) (place y)); try reflexivity; lia.
Qed.

(** Comparisons with [NaN]. *)
Lemma lt_nan_l (x : float) : Number.lt nan x = false.
Proof. unfold Number.lt. rewrite ltb_spec, Prim2SF_nan. reflexivity. Qed.

Lemma lt_nan_r (x : float) : Number.lt x nan = false.
Proof.
  unfold Number.lt. rewrite ltb_spec, Prim2SF_nan.
  destruct (Prim2SF x); reflexivity.
Qed.

Lemma ge_nan_r (x : float) : Number.ge x nan = false.
Proof. unfold Number.ge. rewrite leb_spec, Prim2SF_nan. reflexivity. Qed.

Lemma ge_numbers (x y : float) :
  Number.ge x y = true -> x <> nan /\ y <> nan.
Proof.
  intros H. split; intros ->.
  - rewrite ge_nan_l in H. discriminate.
  - rewrite ge_nan_r in H. discriminate.
Qed.

Lemma lt_numbers (x y : float) :
  Number.lt x y = true -> x <> nan /\ y <> nan.
Proof.
  intros H. split; intros ->.
  - rewrite lt_nan_l in H. discriminate.
  - rewrite lt_nan_r in H. discriminate.
Qed.

Lemma eqb_numbers (x y : float) :
  PrimFloat.eqb x y = true -> x <> nan /\ y <> nan.
Proof.
  rewrite eqb_spec. unfold SFeqb. intros H. split; intros ->;
    rewrite Prim2SF_nan in H.
  - discriminate.
  - destruct (Prim2SF x); discriminate.
Qed.

Lemma ge_trans (x y z : float) :
  Number.ge x y = true -> Number.ge y z = true -> Number.ge x z = true.
Proof.
  intros Hxy Hyz.
  destruct (ge_numbers _ _ Hxy) as [Hx Hy].
  destruct (ge_numbers _ _ Hyz) as [_ Hz].
  rewrite ge_place in * by assumption.
  apply Z.leb_le in Hxy, Hyz. apply Z.leb_le. lia.
Qed.

(** Integers below [2 ^ 53] in absolute value are doubles, in their
    order. *)
Lemma of_Z_place (n : Z) :
  (Z.abs n < 2 ^ 53)%Z ->
  Number.of_Z n <> nan /\ place (Number.of_Z n) = (n * 2 ^ 1074)%Z.
Proof.
  intros Hn. destruct n as [|p|p].
  - split; [vm_compute; discriminate | reflexivity].
  - destruct (Binary64Order.binary_round_small false p) as (m & e & Hm & Hb & Hv);
      [simpl in Hn; lia|].
    assert (E : Prim2SF (Number.of_Z (Zpos p)) = S754_finite false m e).
    { unfold Number.of_Z. simpl binary_normalize. rewrite Hm.
      apply Prim2SF_SF2Prim. exact Hb. }
    split.
    + intros H. rewrite H, Prim2SF_nan in E. discriminate.
    + unfold place. rewrite E. simpl. exact Hv.
  - destruct (Binary64Order.binary_round_small true p) as (m & e & Hm & Hb & Hv);
      [simpl in Hn; lia|].
    assert (E : Prim2SF (Number.of_Z (Zneg p)) = S754_finite true m e).
    { unfold Number.of_Z. simpl binary_normalize. rewrite Hm.
      apply Prim2SF_SF2Prim. exact Hb. }
    split.
    + intros H. rewrite H, Prim2SF_nan in E. discriminate.
    + unfold place. rewrite E. unfold ord, cond_Zopp. rewrite Hv. lia.
Qed.

Lemma ge_of_Z (a b : Z) :
  (Z.abs a < 2 ^ 53)%Z -> (Z.abs b < 2 ^ 53)%Z ->
  Number.ge (Number.of_Z a) (Number.of_Z b) = (b <=? a)%Z.
Proof.
  intros Ha Hb.
  destruct (of_Z_place a Ha) as [Na Pa]. destruct (of_Z_place b Hb) as [Nb Pb].
  rewrite ge_place, Pa, Pb by assumption.
  assert (H : (0 < 2 ^ 1074)%Z) by (apply Z.pow_pos_nonneg; lia).
  destruct (Z.leb_spec b a); [apply Z.leb_le | apply Z.leb_gt]; nia.
Qed.

Lemma lt_of_Z (a b : Z) :
  (Z.abs a < 2 ^ 53)%Z -> (Z.abs b < 2 ^ 53)%Z ->
  Number.lt (Number.of_Z a) (Number.of_Z b) = (a <? b)%Z.
Proof.
  intros Ha Hb.
  destruct (of_Z_place a Ha) as [Na Pa]. destruct (of_Z_place b Hb) as [Nb Pb].
  rewrite lt_place, Pa, Pb by assumption.
  assert (H : (0 < 2 ^ 1074)%Z) by (apply Z.pow_pos_nonneg; lia).
  destruct (Z.ltb_spec a b); [apply Z.ltb_lt | apply Z.ltb_ge]; nia.
Qed.

End NumberOrder.

(** ** Numerals *)

Module ParseFacts.

Lemma radix_digit_decimal (c : ascii) :
  is_decimal_digit c = true ->
  Str.radix_digit 10 c = Some (Z.of_N (Str.code c) - 48)%Z.
Proof.
  destruct c as [[] [] [] [] [] [] [] []]; intros H;
    try discriminate H; reflexivity.
Qed.

Lemma digits_from_numeral (s rest : string) (a : Z) :
  all_digits s = true -> ends_numeral rest = true ->
  Str.digits_from 10 (Some a) (s ++ rest) = Some (numeral_value_from a s).
Proof.
  revert a. induction s as [|c s IH]; intros a Hs Hr; simpl.
  - destruct rest as [|c rest]; [reflexivity|]. simpl in *.
    rewrite StrFacts.radix_digit_10; [reflexivity|].
    now apply negb_true_iff.
  - simpl in Hs. apply andb_prop in Hs. destruct Hs as [Hc Hs].
    rewrite (radix_digit_decimal c Hc). apply IH; assumption.
Qed.

Lemma digit_plain (c : ascii) :
  is_decimal_digit c = true ->
  Str.is_space c = false /\ Ascii.eqb c "-" = false /\ Ascii.eqb c "+" = false.
Proof.
  destruct c as [[] [] [] [] [] [] [] []]; intros H;
    try discriminate H; repeat split.
Qed.

Lemma numeral_value_from_nonneg (s : string) (a : Z) :
  all_digits s = true -> (0 <= a)%Z -> (0 <= numeral_value_from a s)%Z.
Proof.
  revert a. induction s as [|c s IH]; intros a Hs Ha; simpl; [exact Ha|].
  simpl in Hs. apply andb_prop in Hs. destruct Hs as [Hc Hs].
  apply IH; [assumption|].
  unfold is_decimal_digit in Hc. apply andb_prop in Hc. destruct Hc as [Hc _].
  apply N.leb_le in Hc. lia.
Qed.

(** In base ten [parseInt] reads a leading numeral as its integer and
    ignores what follows it. *)
Lemma parseInt_numeral (s rest : string) :
  s <> EmptyString -> all_digits s = true -> ends_numeral rest = true ->
  parseInt (s ++ rest) (Some 10%Z) = Number.of_Z (numeral_value s).
Proof.
  intros Hne Hs Hr. destruct s as [|c s]; [congruence|].
  simpl in Hs. apply andb_prop in Hs. destruct Hs as [Hc Hs].
  destruct (digit_plain c Hc) as (Hsp & Hm & Hp).
  unfold parseInt. simpl Str.trimStart. rewrite Hsp.
  simpl Str.startsWith. rewrite Hm, Hp. simpl.
  rewrite (radix_digit_decimal c Hc), (digits_from_numeral s rest _ Hs Hr).
  unfold numeral_value. simpl numeral_value_from.
  destruct (numeral_value_from _ s); reflexivity.
Qed.

(** With no radix the same holds unless the numeral is [0] and an [x]
    follows, which makes the text hexadecimal. *)
Lemma parseInt_numeral_no_radix (s rest : string) :
  s <> EmptyString -> all_digits s = true -> ends_numeral rest = true ->
  Str.startsWith rest "x" = false -> Str.startsWith rest "X" = false ->
  parseInt (s ++ rest) None = Number.of_Z (numeral_value s).
Proof.
  intros Hne Hs Hr Hx HX. destruct s as [|c s]; [congruence|].
  simpl in Hs. apply andb_prop in Hs. destruct Hs as [Hc Hs].
  destruct (digit_plain c Hc) as (Hsp & Hm & Hp).
  unfold parseInt. simpl Str.trimStart. rewrite Hsp.
  cbn [Str.startsWith append]. rewrite Hm, Hp.
  cbn [orb andb negb Z.eqb Z.ltb Z.compare].
  assert (Hno : (Ascii.eqb c "0" && Str.startsWith (s ++ rest) "x")
                || (Ascii.eqb c "0" && Str.startsWith (s ++ rest) "X") = false).
  { destruct s as [|d s].
    - simpl append. rewrite Hx, HX, !andb_false_r. reflexivity.
    - simpl in Hs. apply andb_prop in Hs. destruct Hs as [Hd _].
      cbn [append Str.startsWith].
      assert (Ascii.eqb d "x" = false /\ Ascii.eqb d "X" = false) as [-> ->].
      { destruct d as [[] [] [] [] [] [] [] []]; try discriminate Hd;
          split; reflexivity. }
      rewrite !andb_false_l, !andb_false_r. reflexivity. }
  cbn [Str.startsWith] in Hno. rewrite Hno. cbn [Str.drop].
  cbn [Str.digits_from append]. rewrite (radix_digit_decimal c Hc).
  rewrite (digits_from_numeral s rest _ Hs Hr).
  unfold numeral_value. simpl numeral_value_from.
  destruct (numeral_value_from _ s); reflexivity.
Qed.

End ParseFacts.

(** ** [rankMovies]: the order of the ranking *)

Section RankingOrder.

Import NumberFacts NumberOrder.

Variable people : list IPerson.

Lemma rankMovies_sort (movies : list IMovie) :
  rankMovies movies people = sort comparefn (map (scored people) movies).
Proof. reflexivity. Qed.

Lemma StronglySorted_nth {A : Type} (R : A -> A -> Prop) (l : list A) :
  StronglySorted R l ->
  forall i j a b, i < j -> nth_error l i = Some a -> nth_error l j = Some b ->
                  R a b.
Proof.
  induction 1 as [|x l Hs IH Hall]; intros i j a b Hij Ha Hb.
  - destruct i; discriminate.
  - destruct j as [|j]; [lia|]. simpl in Hb. destruct i as [|i].
    + simpl in Ha. injection Ha as <-.
      rewrite Forall_forall in Hall. apply Hall. eapply nth_error_In, Hb.
    + simpl in Ha. apply (IH i j); [lia | assumption | assumption].
Qed.

Lemma ge_refl (x : float) : x <> nan -> Number.ge x x = true.
Proof. intros H. rewrite ge_place by assumption. apply Z.leb_refl. Qed.

Lemma rankMovies_numbers (movies : list IMovie) :
  Forall (fun movie => calculateScore movie people <> nan) movies ->
  Forall (fun r => score r <> nan) (rankMovies movies people).
Proof.
  intros H. apply Permutation_Forall with (map (scored people) movies).
  - apply rankMovies_perm.
  - apply Forall_map. exact H.
Qed.

(** No movie is outscored by one ranked after it; the first of the
    ranking has the highest score. *)
Theorem rankMovies_best_first (movies : list IMovie) :
  Forall (fun movie => calculateScore movie people <> nan) movies ->
  forall i j a b,
    i <= j ->
    nth_error (rankMovies movies people) i = Some a ->
    nth_error (rankMovies movies people) j = Some b ->
    Number.ge (score a) (score b) = true.
Proof.
  intros Hok i j a b Hij Ha Hb.
  destruct (Nat.eq_dec i j) as [->|Hne].
  - rewrite Ha in Hb. injection Hb as <-. apply ge_refl.
    pose proof (rankMovies_numbers movies Hok) as Hn.
    rewrite Forall_forall in Hn. apply Hn. eapply nth_error_In, Ha.
  - pose proof (rankMovies_descending movies people Hok) as Hs.
    apply Sorted_StronglySorted in Hs.
    + apply (StronglySorted_nth _ _ Hs i j); [lia | assumption | assumption].
    + intros x y z Hxy Hyz. eapply ge_trans; eassumption.
Qed.

(** Ties keep the order of the input. *)

Lemma tie_not_passed (v x y : float) :
  PrimFloat.eqb x v = true -> Number.lt x y = true -> PrimFloat.eqb y v = false.
Proof.
  intros Hxv Hxy.
  destruct (eqb_numbers _ _ Hxv) as [Hx Hv].
  destruct (lt_numbers _ _ Hxy) as [_ Hy].
  rewrite eqb_place in * by assumption. rewrite lt_place in Hxy by assumption.
  apply Z.eqb_eq in Hxv. apply Z.ltb_lt in Hxy. apply Z.eqb_neq. lia.
Qed.

Lemma insert_tie (v : float) (a : Ranked) (l : list Ranked) :
  filter (fun r => PrimFloat.eqb (score r) v) (insert comparefn a l)
  = filter (fun r => PrimFloat.eqb (score r) v) (a :: l).
Proof.
  induction l as [|b l IH]; [reflexivity|].
  simpl insert. unfold comparefn at 1. rewrite sub_gt_0.
  destruct (Number.lt (score a) (score b)) eqn:Hlt; [|reflexivity].
  simpl filter in *. rewrite IH.
  destruct (PrimFloat.eqb (score a) v) eqn:Ha; [|reflexivity].
  rewrite (tie_not_passed v _ _ Ha Hlt). reflexivity.
Qed.

(** When no score is [NaN] the comparison function is a consistent
    order, for which the language asks for a stable sort: the movies with
    the score [v] are ranked in the order of the input, for every [v]. *)
Theorem rankMovies_stable (movies : list IMovie) (v : float) :
  Forall (fun movie => calculateScore movie people <> nan) movies ->
  filter (fun r => PrimFloat.eqb (score r) v) (rankMovies movies people)
  = filter (fun r => PrimFloat.eqb (score r) v) (map (scored people) movies).
Proof.
  intros _. rewrite rankMovies_sort.
  induction (map (scored people) movies) as [|a l IH]; [reflexivity|].
  simpl sort. rewrite insert_tie. simpl. rewrite IH. reflexivity.
Qed.

End RankingOrder.

Section RankingUnique.

Import NumberFacts NumberOrder.

Variable people : list IPerson.

Lemma strictly_sorted_unique (l1 l2 : list Ranked) :
  Permutation l1 l2 ->
  StronglySorted (fun a b => (rankKey b < rankKey a)%Z) l1 ->
  StronglySorted (fun a b => (rankKey b < rankKey a)%Z) l2 ->
  l1 = l2.
Proof.
  revert l2. induction l1 as [|a l1 IH]; intros l2 Hp H1 H2.
  - apply Permutation_nil in Hp. now subst.
  - destruct l2 as [|b l2].
    + apply Permutation_sym, Permutation_nil in Hp. discriminate.
    + inversion H1 as [|? ? H1' Ha]; subst. inversion H2 as [|? ? H2' Hb]; subst.
      rewrite Forall_forall in Ha, Hb.
      assert (Hab : a = b).
      { assert (Ia : In a (b :: l2))
          by (apply Permutation_in with (a :: l1); [assumption | now left]).
        assert (Ib : In b (a :: l1))
          by (apply Permutation_in with (b :: l2);
              [apply Permutation_sym; assumption | now left]).
        destruct Ia as [|Ia]; [congruence|]. destruct Ib as [|Ib]; [congruence|].
        specialize (Ha _ Ib). specialize (Hb _ Ia). lia. }
      subst b. f_equal. apply IH; try assumption.
      eapply Permutation_cons_inv, Hp.
Qed.

Lemma sorted_strict (l : list Ranked) :
  Forall (fun r => score r <> nan) l ->
  NoDup (map rankKey l) ->
  StronglySorted (fun a b => Number.ge (score a) (score b) = true) l ->
  StronglySorted (fun a b => (rankKey b < rankKey a)%Z) l.
Proof.
  intros Hn Hd Hs. induction Hs as [|a l Hs IH Ha]; constructor.
  - apply IH; [now inversion Hn | now inversion Hd].
  - inversion Hn as [|? ? Na Nl]; subst. inversion Hd as [|? ? Hnotin _]; subst.
    rewrite Forall_forall in *. intros b Hb.
    specialize (Ha b Hb). rewrite ge_place in Ha by auto.
    apply Z.leb_le in Ha. fold (rankKey a) (rankKey b) in Ha.
    assert (rankKey b <> rankKey a); [|lia].
    intros E. apply Hnotin. rewrite <- E. apply in_map, Hb.
Qed.

Lemma different_scores_keys (movies : list IMovie) :
  Forall (fun movie => calculateScore movie people <> nan) movies ->
  ForallOrdPairs
    (fun m1 m2 => PrimFloat.eqb (calculateScore m1 people)
                                (calculateScore m2 people) = false) movies ->
  NoDup (map rankKey (map (scored people) movies)).
Proof.
  intros Hn Hp. induction Hp as [|a l Ha Hp IH]; simpl; constructor.
  - inversion Hn as [|? ? Na Nl]; subst. rewrite Forall_forall in *.
    intros Hin. rewrite map_map in Hin. apply in_map_iff in Hin.
    destruct Hin as (m & E & Hm).
    specialize (Ha m Hm). rewrite eqb_place in Ha by auto.
    apply Z.eqb_neq in Ha. apply Ha. symmetry. exact E.
  - apply IH. now inversion Hn.
Qed.

(** When the scores are numbers, no two alike, the ranking does not
    depend on the order in which the movies are given. *)
Theorem rankMovies_order_independent (movies movies' : list IMovie) :
  Permutation movies movies' ->
  Forall (fun movie => calculateScore movie people <> nan) movies ->
  ForallOrdPairs
    (fun m1 m2 => PrimFloat.eqb (calculateScore m1 people)
                                (calculateScore m2 people) = false) movies ->
  rankMovies movies people = rankMovies movies' people.
Proof.
  intros Hperm Hn Hdiff.
  assert (Hn' : Forall (fun movie => calculateScore movie people <> nan) movies')
    by (eapply Permutation_Forall; eassumption).
  assert (P : Permutation (rankMovies movies people) (rankMovies movies' people)).
  { eapply perm_trans; [apply Permutation_sym, rankMovies_perm|].
    eapply perm_trans; [|apply rankMovies_perm].
    apply Permutation_map, Hperm. }
  assert (D : NoDup (map rankKey (rankMovies movies people))).
  { eapply Permutation_NoDup; [|apply (different_scores_keys movies Hn Hdiff)].
    apply Permutation_map, rankMovies_perm. }
  assert (S : forall ms,
             Forall (fun movie => calculateScore movie people <> nan) ms ->
             StronglySorted (fun a b => Number.ge (score a) (score b) = true)
               (rankMovies ms people)).
  { intros ms Hms. apply Sorted_StronglySorted.
    - intros x y z Hxy Hyz. eapply ge_trans; eassumption.
    - apply rankMovies_descending, Hms. }
  apply strictly_sorted_unique; [exact P | |].
  - apply sorted_strict; auto using rankMovies_numbers.
  - apply sorted_strict; auto using rankMovies_numbers.
    eapply Permutation_NoDup; [|exact D]. apply Permutation_map, P.
Qed.

End RankingUnique.

(** ** The year criteria *)

Section YearCriteria.

Import NumberFacts NumberOrder.

Variable movie : IMovie.
Variable prefs : Preferences.

Lemma parseInt_no_numeral_no_radix (s : string) :
  starts_with_numeral s = false -> parseInt s None = nan.
Proof.
  unfold starts_with_numeral, parseInt.
  destruct (Str.trimStart s) as [|c rest]; [reflexivity|].
  destruct c as [[] [] [] [] [] [] [] []]; simpl; intros H;
    try reflexivity; try discriminate H;
    (destruct rest as [|d rest']; [reflexivity|]);
    destruct d as [[] [] [] [] [] [] [] []];
    try discriminate H; reflexivity.
Qed.

(** A year that does not begin with a numeral satisfies neither
    [afterYear] nor [beforeYear], whatever the targets. *)
Theorem year_without_numeral (score : float) :
  starts_with_numeral (year movie) = false ->
  scoreAfterYear movie prefs score = score /\
  scoreBeforeYear movie prefs score = score.
Proof.
  intros H. unfold scoreAfterYear, scoreBeforeYear.
  rewrite (parseInt_no_numeral_no_radix _ H). split.
  - destruct (afterYear prefs); [rewrite ge_nan_l|]; reflexivity.
  - destruct (beforeYear prefs); [rewrite lt_nan_l|]; reflexivity.
Qed.

(** A year that begins with the numeral of [Y], against the integer
    target [T]: [afterYear] adds its weight exactly when [T <= Y] and
    [beforeYear] exactly when [Y < T]; what follows the numeral in the
    year is not read. *)
Theorem year_with_numeral (numeral rest : string) (T : Z) (score : float) :
  year movie = (numeral ++ rest)%string ->
  numeral <> EmptyString -> all_digits numeral = true ->
  ends_numeral rest = true ->
  Str.startsWith rest "x" = false -> Str.startsWith rest "X" = false ->
  (numeral_value numeral < 2 ^ 53)%Z -> (Z.abs T < 2 ^ 53)%Z ->
  (forall p, afterYear prefs = Some p -> Pref.value p = Number.of_Z T ->
             scoreAfterYear movie prefs score
             = if (T <=? numeral_value numeral)%Z
               then (score + Pref.weight p)%float else score) /\
  (forall p, beforeYear prefs = Some p -> Pref.value p = Number.of_Z T ->
             scoreBeforeYear movie prefs score
             = if (numeral_value numeral <? T)%Z
               then (score + Pref.weight p)%float else score).
Proof.
  intros Hy Hne Hd Hr Hx HX HY HT.
  assert (Hparse : parseInt (year movie) None
                   = Number.of_Z (numeral_value numeral))
    by (rewrite Hy; apply ParseFacts.parseInt_numeral_no_radix; assumption).
  assert (HY' : (Z.abs (numeral_value numeral) < 2 ^ 53)%Z).
  { pose proof (ParseFacts.numeral_value_from_nonneg numeral 0 Hd (Z.le_refl 0)).
    unfold numeral_value in *. lia. }
  split; intros p Hp Hv.
  - unfold scoreAfterYear. rewrite Hp, Hparse, Hv, ge_of_Z by assumption.
    reflexivity.
  - unfold scoreBeforeYear. rewrite Hp, Hparse, Hv, lt_of_Z by assumption.
    reflexivity.
Qed.

End YearCriteria.

(** ** [getRottenTomatoesScore]: which rating is read, and how *)

Section RottenTomatoes.

Import NumberFacts NumberOrder.

Lemma find_first {A : Type} (f : A -> bool) (pre post : list A) (x : A) :
  (forall y, In y pre -> f y = false) -> f x = true ->
  find f (pre ++ x :: post) = Some x.
Proof.
  intros Hpre Hx. induction pre as [|y pre IH]; simpl.
  - now rewrite Hx.
  - rewrite (Hpre y (or_introl eq_refl)). apply IH.
    intros z Hz. apply Hpre. now right.
Qed.

Lemma digit_not_percent (c : ascii) :
  is_decimal_digit c = true -> Ascii.eqb c "%" = false.
Proof.
  destruct c as [[] [] [] [] [] [] [] []]; intros H;
    try discriminate H; reflexivity.
Qed.

Lemma replace_percent (numeral rest : string) :
  all_digits numeral = true ->
  Str.replace "%" "" (numeral ++ "%" ++ rest) = (numeral ++ rest)%string.
Proof.
  induction numeral as [|c s IH]; intros Hd.
  - reflexivity.
  - simpl in Hd. apply andb_prop in Hd. destruct Hd as [Hc Hs].
    specialize (IH Hs). simpl in *.
    rewrite (digit_not_percent c Hc). simpl. now rewrite IH.
Qed.

Variable movie : IMovie.

(** The score is read off the first rating whose source is
    ["Rotten Tomatoes"], whatever comes before or after it in the list;
    a value that writes [N] followed by a percent sign gives [N], with no
    bound on [N]; and a [minimumRottenTomatoesScore] criterion with the
    integer target [T] adds its weight exactly when [T <= N]. *)
Theorem getRottenTomatoesScore_percent
  (pre post : list Rating.t) (numeral rest : string) :
  ratings movie
  = pre ++ Rating.make "Rotten Tomatoes" (numeral ++ "%" ++ rest) :: post ->
  (forall r, In r pre -> Rating.source r <> "Rotten Tomatoes") ->
  numeral <> EmptyString -> all_digits numeral = true ->
  ends_numeral rest = true ->
  getRottenTomatoesScore movie = Number.of_Z (numeral_value numeral) /\
  forall (prefs : Preferences) (p : Pref.t float) (T : Z) (score : float),
    minimumRottenTomatoesScore prefs = Some p ->
    Pref.value p = Number.of_Z T ->
    (numeral_value numeral < 2 ^ 53)%Z -> (Z.abs T < 2 ^ 53)%Z ->
    scoreMinimumRottenTomatoesScore movie prefs score
    = if (T <=? numeral_value numeral)%Z
      then (score + Pref.weight p)%float else score.
Proof.
  intros Hr Hpre Hne Hd Hrest.
  assert (Hscore : getRottenTomatoesScore movie
                   = Number.of_Z (numeral_value numeral)).
  { unfold getRottenTomatoesScore. rewrite Hr, find_first.
    - cbn [Rating.value]. rewrite replace_percent by assumption.
      apply ParseFacts.parseInt_numeral; assumption.
    - intros y Hy. apply String.eqb_neq, Hpre, Hy.
    - reflexivity. }
  split; [exact Hscore|].
  intros prefs p T score Hp Hv HN HT.
  unfold scoreMinimumRottenTomatoesScore. rewrite Hp, Hscore, Hv.
  rewrite ge_of_Z; [reflexivity | | assumption].
  pose proof (ParseFacts.numeral_value_from_nonneg numeral 0 Hd (Z.le_refl 0)).
  unfold numeral_value in *. lia.
Qed.

End RottenTomatoes.

(** ** [runtimeToMinutes] and [shorterThan] *)

Section Runtime.

Import NumberFacts NumberOrder.

Lemma split_from_first_h (a t cur : string) :
  Str.includes a "h" = false ->
  Str.split_from "h" 0 cur (a ++ "h" ++ t)
  = (cur ++ a)%string :: Str.split_from "h" 0 EmptyString t.
Proof.
  revert cur. induction a as [|c a IH]; intros cur Ha; simpl.
  - now rewrite StrFacts.append_nil_r.
  - simpl in Ha. apply orb_false_elim in Ha. destruct Ha as [H1 H2].
    rewrite H1, IH by assumption. now rewrite <- StrFacts.append_assoc.
Qed.

Lemma runtimeToMinutes_no_mark (s : string) :
  Str.includes s "h" = false -> runtimeToMinutes s = nan.
Proof.
  intros Hs. unfold runtimeToMinutes, Str.split.
  rewrite (StrFacts.split_from_no_h s EmptyString Hs). simpl.
  apply add_nan_r.
Qed.

(** Only the text before the first hour mark and the text between the
    first and the second are read: what follows a second mark does not
    change the result. *)
Theorem runtimeToMinutes_second_mark (a b c : string) :
  Str.includes a "h" = false -> Str.includes b "h" = false ->
  runtimeToMinutes (a ++ "h" ++ b ++ "h" ++ c)
  = runtimeToMinutes (a ++ "h" ++ b).
Proof.
  intros Ha Hb. unfold runtimeToMinutes, Str.split.
  rewrite (split_from_first_h a (b ++ "h" ++ c) EmptyString Ha).
  rewrite (split_from_first_h b c EmptyString Hb).
  rewrite (StrFacts.split_from_one_h a b EmptyString Ha Hb).
  reflexivity.
Qed.

(** A runtime with no hour mark, such as ["142 min"], is [NaN] minutes:
    as the movie's runtime or as the voter's limit it leaves the
    [shorterThan] criterion unsatisfied, whatever the other side is. *)
Theorem shorterThan_without_mark
  (movie : IMovie) (prefs : Preferences) (score : float) :
  Str.includes (runtime movie) "h" = false \/
  (exists p, shorterThan prefs = Some p
             /\ Str.includes (Pref.value p) "h" = false) ->
  scoreShorterThan movie prefs score = score.
Proof.
  unfold scoreShorterThan. intros [H | (p & Hp & H)].
  - rewrite (runtimeToMinutes_no_mark _ H).
    destruct (shorterThan prefs); [|reflexivity]. now rewrite lt_nan_l.
  - rewrite Hp, (runtimeToMinutes_no_mark _ H), lt_nan_r. reflexivity.
Qed.

End Runtime.

(** ** [favoritePlotElements]: letter case *)

Section PlotElements.

Lemma filter_length_Forall2 {A : Type} (f g : A -> bool) (l1 l2 : list A) :
  Forall2 (fun x y => f x = g y) l1 l2 ->
  List.length (filter f l1) = List.length (filter g l2).
Proof.
  induction 1 as [|x y l1 l2 Hxy _ IH]; simpl; [reflexivity|].
  rewrite Hxy. destruct (g y); simpl; congruence.
Qed.

(** The plot elements are matched without regard to letter case, on both
    sides: two plots with the same lower-case form, against two lists
    whose elements have pairwise the same lower-case form, get the same
    amount. *)
Theorem favoritePlotElements_case_insensitive
  (movie movie' : IMovie) (prefs prefs' : Preferences)
  (p p' : Pref.t (list string)) (score : float) :
  favoritePlotElements prefs = Some p ->
  favoritePlotElements prefs' = Some p' ->
  Pref.weight p = Pref.weight p' ->
  Str.toLowerCase (plot movie) = Str.toLowerCase (plot movie') ->
  Forall2 (fun e e' => Str.toLowerCase e = Str.toLowerCase e')
          (Pref.value p) (Pref.value p') ->
  scoreFavoritePlotElements movie prefs score
  = scoreFavoritePlotElements movie' prefs' score.
Proof.
  intros Hp Hp' Hw Hplot Hel. unfold scoreFavoritePlotElements.
  rewrite Hp, Hp', Hw. do 2 f_equal.
  unfold length_number, matchingElements. do 2 f_equal.
  apply filter_length_Forall2.
  eapply Forall2_impl; [|exact Hel].
  intros e e' He. cbv beta. now rewrite Hplot, He.
Qed.

End PlotElements.

(** ** [calculateScore]: voters without preferences, and scores that are
    not finite *)

Section Rosters.

Import NumberFacts.
Local Open Scope float_scope.

Variable movie : IMovie.

(** A voter with no criterion is as good as absent from the roster. *)
Theorem voter_without_preferences
  (before after : list IPerson) (person : IPerson) :
  preferences person = noPreferences ->
  calculateScore movie (before ++ person :: after)
  = calculateScore movie (before ++ after).
Proof.
  intros H. unfold calculateScore. rewrite !fold_left_app. simpl.
  unfold scorePerson at 2. rewrite H. reflexivity.
Qed.

Lemma notFinite_add_l (x y : float) : notFinite x -> notFinite (x + y).
Proof.
  unfold notFinite.
  assert (H : Prim2SF (x + y) = SF64add (Prim2SF x) (Prim2SF y))
    by apply add_spec.
  intros [-> | [-> | ->]];
    destruct (Prim2SF y) as [s|[]| |s m e]; simpl in H;
    first [ left; apply Prim2SF_inj; rewrite H; reflexivity
          | right; left; apply Prim2SF_inj; rewrite H; reflexivity
          | right; right; apply Prim2SF_inj; rewrite H; reflexivity ].
Qed.

Lemma notFinite_add_r (x y : float) : notFinite y -> notFinite (x + y).
Proof.
  unfold notFinite.
  assert (H : Prim2SF (x + y) = SF64add (Prim2SF x) (Prim2SF y))
    by apply add_spec.
  intros [-> | [-> | ->]];
    destruct (Prim2SF x) as [s|[]| |s m e]; simpl in H;
    first [ left; apply Prim2SF_inj; rewrite H; reflexivity
          | right; left; apply Prim2SF_inj; rewrite H; reflexivity
          | right; right; apply Prim2SF_inj; rewrite H; reflexivity ].
Qed.

Lemma notFinite_sub_l (x y : float) : notFinite x -> notFinite (x - y).
Proof. intros H. rewrite sub_add_opp. apply notFinite_add_l, H. Qed.

Lemma scorePreferences_notFinite (prefs : Preferences) (s : float) :
  notFinite s -> notFinite (scorePreferences movie prefs s).
Proof.
  intros Hs.
  unfold scorePreferences, scoreAfterYear, scoreBeforeYear,
    scoreMaximumAgeRating, scoreShorterThan, scoreFavoriteGenre,
    scoreLeastFavoriteDirector, scoreFavoriteActors,
    scoreFavoritePlotElements, scoreMinimumRottenTomatoesScore.
  repeat match goal with
         | |- context [match ?o with Some _ => _ | None => _ end] =>
             destruct o
         | |- context [if ?b then _ else _] => destruct b
         end;
    auto 12 using notFinite_add_l, notFinite_sub_l.
Qed.

Lemma fold_scorePerson_notFinite (people : list IPerson) (s : float) :
  notFinite s -> notFinite (fold_left (scorePerson movie) people s).
Proof.
  revert s. induction people as [|person people IH]; intros s Hs; simpl.
  - exact Hs.
  - apply IH, scorePreferences_notFinite, Hs.
Qed.

(** A voter whose favourite actors are all missing from the cast makes
    the score of the movie [NaN] or an infinity, whatever the weights and
    whoever else votes. *)
Theorem unmatched_favoriteActors_not_finite
  (before after : list IPerson) (person : IPerson) (p : Pref.t (list string)) :
  favoriteActors (preferences person) = Some p ->
  matchingActors movie (Pref.value p) = [] ->
  notFinite (calculateScore movie (before ++ person :: after)).
Proof.
  intros Hp Hk. unfold calculateScore. rewrite fold_left_app. simpl.
  apply fold_scorePerson_notFinite.
  unfold scorePerson at 1. unfold scorePreferences.
  assert (H : forall s, notFinite
                          (scoreFavoriteActors movie (preferences person) s)).
  { intros s. unfold scoreFavoriteActors. rewrite Hp, Hk.
    apply notFinite_add_r. change (length_number []) with 0.
    apply div_zero. }
  unfold scoreFavoritePlotElements, scoreMinimumRottenTomatoesScore.
  repeat match goal with
         | |- context [match ?o with Some _ => _ | None => _ end] =>
             destruct o
         | |- context [if ?b then _ else _] => destruct b
         end;
    auto using notFinite_add_l.
Qed.

End Rosters.

(** ** [index.ts]: the ranking that is submitted *)

(** When every fetched record carries the identifier it was fetched for,
    the submitted ranking is a rearrangement of the prompt's identifiers;
    it has no repetition when the prompt has none. *)
Theorem ranking_rearranges (movieDetails : list IMovie) (prompt : IPrompt.t) :
  map imdbID movieDetails = IPrompt.movies prompt ->
  Permutation (ranking movieDetails prompt) (IPrompt.movies prompt) /\
  (NoDup (IPrompt.movies prompt) -> NoDup (ranking movieDetails prompt)).
Proof.
  intros H.
  assert (P : Permutation (ranking movieDetails prompt) (IPrompt.movies prompt)).
  { rewrite <- H. unfold ranking.
    apply perm_trans with (map id (map (scored (IPrompt.people prompt))
                                       movieDetails)).
    - apply Permutation_map, Permutation_sym, rankMovies_perm.
    - rewrite map_map. apply Permutation_refl. }
  split; [exact P|].
  intros Hd. eapply Permutation_NoDup; [apply Permutation_sym, P | exact Hd].
Qed.

(** ** Whole numbers: exact arithmetic

    A sum or a product of doubles that are integers is their integer sum
    or product whenever that is below [2 ^ 53] in magnitude: rounding has
    nothing to discard.  This is what makes scores with whole weights, and
    runtimes in minutes, exact. *)

Module Binary64Exact.

Import Binary64 Binary64Order.
Local Open Scope Z_scope.

Lemma shr_1_even (k : Z) (s : bool) :
  0 <= k ->
  shr_1 {| shr_m := 2 * k; shr_r := false; shr_s := s |}
  = {| shr_m := k; shr_r := false; shr_s := s |}.
Proof. destruct k as [|q|q]; intros H; try lia; reflexivity. Qed.

(** Shifting out zeros loses nothing. *)
Lemma iter_shr_1_exact (p : positive) (k : Z) :
  0 <= k ->
  iter_pos shr_1 p {| shr_m := k * 2 ^ Zpos p; shr_r := false; shr_s := false |}
  = {| shr_m := k; shr_r := false; shr_s := false |}.
Proof.
  revert k. induction p as [p IH|p IH|]; intros k Hk; cbn [iter_pos].
  - assert (H2 : 0 < 2 ^ Zpos p) by (apply Z.pow_pos_nonneg; lia).
    replace (k * 2 ^ Zpos p~1) with (2 * (k * 2 ^ Zpos p * 2 ^ Zpos p)).
    + rewrite shr_1_even, IH, IH by nia. reflexivity.
    + rewrite (Pos2Z.inj_xI p).
      replace (2 * Zpos p + 1) with (1 + Zpos p + Zpos p) by lia.
      rewrite !Z.pow_add_r by lia. change (2 ^ 1) with 2. ring.
  - assert (H2 : 0 < 2 ^ Zpos p) by (apply Z.pow_pos_nonneg; lia).
    replace (k * 2 ^ Zpos p~0) with (k * 2 ^ Zpos p * 2 ^ Zpos p).
    + rewrite IH, IH by nia. reflexivity.
    + rewrite (Pos2Z.inj_xO p).
      replace (2 * Zpos p) with (Zpos p + Zpos p) by lia.
      rewrite !Z.pow_add_r by lia. ring.
  - change (2 ^ 1) with 2. rewrite Z.mul_comm. apply shr_1_even, Hk.
Qed.

Lemma digits2_unique (m : positive) (k : Z) :
  2 ^ (k - 1) <= Zpos m < 2 ^ k -> Zpos (digits2_pos m) = k.
Proof.
  intros [Hlo Hhi].
  pose proof (digits2_lower m) as Dlo. pose proof (digits2_upper m) as Dhi.
  assert (H1 : Zpos (digits2_pos m) - 1 < k).
  { apply (Z.pow_lt_mono_r_iff 2); try lia.
    destruct (Z_lt_le_dec k 0) as [Hk|]; [|lia].
    rewrite (Z.pow_neg_r 2 k) in Hhi by lia. lia. }
  assert (H2 : k - 1 < Zpos (digits2_pos m)).
  { apply (Z.pow_lt_mono_r_iff 2); lia. }
  lia.
Qed.

Lemma shr_fexp_shift (m e : Z) (l : location) (n : positive) :
  fexp (Zdigits2 m + e) - e = Zpos n ->
  shr_fexp m e l = (iter_pos shr_1 n (shr_record_of_loc m l), e + Zpos n).
Proof.
  intros H. unfold SpecFloat.shr_fexp.
  change (shr (shr_record_of_loc m l) e (fexp (Zdigits2 m + e) - e)
          = (iter_pos shr_1 n (shr_record_of_loc m l), e + Zpos n)).
  rewrite H. reflexivity.
Qed.

Lemma pow_lt_exponent (a b : Z) : 0 <= b -> 2 ^ a < 2 ^ b -> a < b.
Proof. intros Hb H. apply (Z.pow_lt_mono_r_iff 2); lia. Qed.

(** Rounding what is an integer below [2 ^ 53] gives that integer. *)
Lemma binary_round_aux_exact (sx : bool) (M : positive) (e : Z) (p : positive) :
  -1074 <= e -> e <= fexp (Zpos (digits2_pos M) + e) ->
  Zpos p < 2 ^ 53 ->
  Zpos M * 2 ^ (e + 1074) = Zpos p * 2 ^ 1074 ->
  exists m' e',
    binary_round_aux sx (Zpos M) e loc_Exact = S754_finite sx m' e'
    /\ Zpos m' * 2 ^ (e' + 1074) = Zpos p * 2 ^ 1074.
Proof.
  intros He Hf Hp Hval.
  pose proof (digits2_lower M) as Dlo. pose proof (digits2_upper M) as Dhi.
  set (d := Zpos (digits2_pos M)) in *.
  assert (Hd : 0 < d) by (unfold d; lia).
  assert (T : 0 < 2 ^ 1074) by (apply Z.pow_pos_nonneg; lia).
  (* the exponent of the result is small *)
  assert (Hsmall : forall K f, 0 < K -> -1074 <= f ->
                     K * 2 ^ (f + 1074) = Zpos p * 2 ^ 1074 -> f < 53).
  { intros K f HK Hf' HKv.
    assert (2 ^ (f + 1074) < 2 ^ 1127).
    { replace (2 ^ 1127) with (2 ^ 53 * 2 ^ 1074)
        by (rewrite <- Z.pow_add_r by lia; reflexivity).
      assert (0 < 2 ^ (f + 1074)) by (apply Z.pow_pos_nonneg; lia). nia. }
    assert (f + 1074 < 1127) by (apply pow_lt_exponent; lia). lia. }
  rewrite fexp_eq in Hf.
  destruct (Z.eq_dec (Z.max (d + e - 53) (-1074)) e) as [Hcan|Hshift].
  - (* nothing to shift out *)
    assert (Hcan' : fexp (Zdigits2 (Zpos M) + e) = e)
      by (rewrite fexp_eq; exact Hcan).
    exists M, e. split; [|exact Hval].
    unfold SpecFloat.binary_round_aux.
    rewrite (shr_fexp_canonical (Zpos M) e loc_Exact Hcan').
    cbn [shr_record_of_loc loc_of_shr_record round_nearest_even shr_m].
    rewrite (shr_fexp_canonical (Zpos M) e loc_Exact Hcan').
    cbn [shr_record_of_loc shr_m].
    assert (Hle : (e <=? emax - prec) = true).
    { apply Z.leb_le. change (emax - prec) with 971.
      specialize (Hsmall (Zpos M) e ltac:(lia) He Hval). lia. }
    rewrite Hle. reflexivity.
  - (* [d - 53] zeros to shift out *)
    assert (Hn : Z.max (d + e - 53) (-1074) = d + e - 53) by lia.
    assert (Hdn : 53 < d) by lia.
    assert (Heneg : e < 0).
    { destruct (Z_lt_le_dec e 0) as [|Hge]; [assumption|exfalso].
      assert (Zpos M * 2 ^ e = Zpos p).
      { rewrite Z.pow_add_r in Hval by lia. nia. }
      assert (1 <= 2 ^ e) by (apply Z.lt_pred_le, Z.pow_pos_nonneg; lia).
      assert (Zpos M < 2 ^ 53) by nia.
      assert (d - 1 < 53)
        by (apply pow_lt_exponent; [lia | ]; lia).
      lia. }
    assert (HM : Zpos M = Zpos p * 2 ^ (- e)).
    { assert (E : Zpos M * 2 ^ (e + 1074) * 2 ^ (- e)
                  = Zpos p * 2 ^ 1074 * 2 ^ (- e)) by (rewrite Hval; reflexivity).
      rewrite <- Z.mul_assoc, <- Z.pow_add_r in E by lia.
      replace (e + 1074 + - e) with 1074 in E by lia. nia. }
    assert (Hdle : d - 53 <= - e).
    { assert (Zpos M < 2 ^ (53 - e)).
      { rewrite HM. replace (53 - e) with (53 + - e) by lia.
        rewrite Z.pow_add_r by lia.
        apply Z.mul_lt_mono_pos_r; [apply Z.pow_pos_nonneg; lia | assumption]. }
      assert (d - 1 < 53 - e) by (apply pow_lt_exponent; lia). lia. }
    destruct (d - 53) as [|n|n] eqn:En; try lia.
    set (K := Zpos p * 2 ^ (- e - Zpos n)).
    assert (HK : Zpos M = K * 2 ^ Zpos n).
    { unfold K. rewrite HM, <- Z.mul_assoc, <- Z.pow_add_r by lia.
      do 2 f_equal. lia. }
    assert (HKpos : 0 < K).
    { unfold K. apply Z.mul_pos_pos; [lia | apply Z.pow_pos_nonneg; lia]. }
    assert (Hshiftn : fexp (Zdigits2 (Zpos M) + e) - e = Zpos n).
    { rewrite fexp_eq. simpl Zdigits2. fold d. lia. }
    destruct K as [|k|k] eqn:EK; try lia.
    assert (Hk53 : Zpos (digits2_pos k) = 53).
    { apply digits2_unique.
      assert (P : 0 < 2 ^ Zpos n) by (apply Z.pow_pos_nonneg; lia).
      replace d with (Zpos n + 53) in Dlo, Dhi by lia.
      replace (Zpos n + 53 - 1) with (52 + Zpos n) in Dlo by lia.
      replace (Zpos n + 53) with (53 + Zpos n) in Dhi by lia.
      rewrite Z.pow_add_r in Dlo, Dhi by lia. rewrite HK in Dlo, Dhi.
      change (53 - 1) with 52. split; nia. }
    assert (Hcan' : fexp (Zdigits2 (Zpos k) + (e + Zpos n)) = e + Zpos n)
      by (rewrite fexp_eq; simpl Zdigits2; rewrite Hk53; lia).
    assert (Hvalk : Zpos k * 2 ^ (e + Zpos n + 1074) = Zpos p * 2 ^ 1074).
    { rewrite <- Hval, HK.
      replace (e + Zpos n + 1074) with (Zpos n + (e + 1074)) by lia.
      rewrite Z.pow_add_r by lia. ring. }
    exists k, (e + Zpos n). split; [|exact Hvalk].
    unfold SpecFloat.binary_round_aux.
    rewrite (shr_fexp_shift (Zpos M) e loc_Exact n Hshiftn).
    cbn [shr_record_of_loc]. rewrite HK, iter_shr_1_exact by lia.
    cbn [loc_of_shr_record round_nearest_even shr_m].
    rewrite (shr_fexp_canonical (Zpos k) (e + Zpos n) loc_Exact Hcan').
    cbn [shr_record_of_loc shr_m].
    assert (Hle : (e + Zpos n <=? emax - prec) = true).
    { apply Z.leb_le. change (emax - prec) with 971.
      specialize (Hsmall (Zpos k) (e + Zpos n) ltac:(lia) ltac:(lia) Hvalk).
      lia. }
    rewrite Hle. reflexivity.
Qed.

End Binary64Exact.

Module Binary64Sum.

Import Binary64 Binary64Order Binary64Exact.
Local Open Scope Z_scope.

Lemma binary_round_exact (sx : bool) (M : positive) (e : Z) (p : positive) :
  -1074 <= e -> Zpos p < 2 ^ 53 ->
  Zpos M * 2 ^ (e + 1074) = Zpos p * 2 ^ 1074 ->
  exists m' e',
    binary_round sx M e = S754_finite sx m' e'
    /\ Zpos m' * 2 ^ (e' + 1074) = Zpos p * 2 ^ 1074.
Proof.
  intros He Hp Hval. unfold SpecFloat.binary_round.
  set (d := Zpos (digits2_pos M)).
  set (f := fexp (d + e)).
  assert (Hf : -1074 <= f) by (unfold f; rewrite fexp_eq; lia).
  destruct (Z_lt_le_dec f e) as [Hlt|Hle].
  - pose proof (shl_align_value M e f ltac:(lia)) as Hv.
    unfold shl_align in *. destruct (f - e) as [|q|q] eqn:Eq; try lia.
    cbn [fst] in Hv.
    apply binary_round_aux_exact; try assumption.
    + rewrite digits2_iter_xO, Pos2Z.inj_add. fold d.
      replace (d + Zpos q + f) with (d + e) by lia. fold f. lia.
    + rewrite Hv, <- Hval, <- Z.mul_assoc, <- Z.pow_add_r by lia.
      do 2 f_equal. lia.
  - assert (Hsh : shl_align M e f = (M, e)).
    { unfold shl_align. destruct (f - e) eqn:Eq; try reflexivity. lia. }
    rewrite Hsh. apply binary_round_aux_exact; try assumption.
Qed.

Lemma scaled_pos (n : Z) (P : positive) (k : Z) :
  0 <= k -> Zpos P * 2 ^ k = n * 2 ^ 1074 -> exists p, n = Zpos p.
Proof.
  intros Hk H.
  assert (T : 0 < 2 ^ 1074) by (apply Z.pow_pos_nonneg; lia).
  assert (K : 0 < 2 ^ k) by (apply Z.pow_pos_nonneg; lia).
  destruct n as [|p|p]; [nia | eauto | nia].
Qed.

Lemma binary_normalize_exact (M e n : Z) :
  -1074 <= e -> Z.abs n < 2 ^ 53 ->
  M * 2 ^ (e + 1074) = n * 2 ^ 1074 ->
  integral (binary_normalize M e false) n.
Proof.
  intros He Hn Hv.
  assert (T : 0 < 2 ^ 1074) by (apply Z.pow_pos_nonneg; lia).
  destruct M as [|P|P]; unfold binary_normalize.
  - split; [discriminate|]. cbn [ord]. lia.
  - destruct (scaled_pos n P (e + 1074) ltac:(lia) Hv) as [p ->].
    destruct (binary_round_exact false P e p He ltac:(lia) Hv)
      as (m' & e' & -> & Hv').
    split; [discriminate|]. cbn [ord cond_Zopp]. exact Hv'.
  - assert (Hv' : Zpos P * 2 ^ (e + 1074) = (- n) * 2 ^ 1074).
    { rewrite Z.mul_opp_l, <- Hv. change (Zneg P) with (- Zpos P). lia. }
    destruct (scaled_pos (- n) P (e + 1074) ltac:(lia) Hv') as [p Hp].
    rewrite Hp in Hv'.
    destruct (binary_round_exact true P e p He ltac:(lia) Hv')
      as (m' & e' & -> & Hv'').
    split; [discriminate|]. cbn [ord cond_Zopp]. rewrite Hv''. lia.
Qed.

Lemma integral_not_infinity (s : bool) (n : Z) :
  Z.abs n < 2 ^ 53 -> ~ integral (S754_infinity s) n.
Proof.
  intros Hb [_ Ho]. cbn [ord] in Ho.
  assert (T : 0 < 2 ^ 1074) by (apply Z.pow_pos_nonneg; lia).
  assert (E : 2 ^ 2098 = 2 ^ 1024 * 2 ^ 1074)
    by (rewrite <- Z.pow_add_r by lia; reflexivity).
  assert (B : 2 ^ 53 < 2 ^ 1024) by (apply Z.pow_lt_mono_r; lia).
  rewrite E in Ho. destruct s; unfold cond_Zopp in Ho.
  - rewrite <- Z.mul_opp_l in Ho. apply Z.mul_reg_r in Ho; lia.
  - apply Z.mul_reg_r in Ho; lia.
Qed.

Lemma integral_zero (s : bool) (n : Z) :
  integral (S754_zero s) n -> n = 0.
Proof.
  intros [_ Ho]. cbn [ord] in Ho.
  assert (T : 0 < 2 ^ 1074) by (apply Z.pow_pos_nonneg; lia). nia.
Qed.

(** The sum of two doubles that are integers is their integer sum, when
    it is below [2 ^ 53] in magnitude. *)
Lemma SFadd_exact (x y : spec_float) (a b : Z) :
  valid_binary x = true -> valid_binary y = true ->
  integral x a -> integral y b ->
  Z.abs a < 2 ^ 53 -> Z.abs b < 2 ^ 53 -> Z.abs (a + b) < 2 ^ 53 ->
  integral (SF64add x y) (a + b).
Proof.
  intros Hx Hy Ix Iy Ha Hb Hab.
  destruct x as [sx|sx| |sx mx ex];
    [ | exfalso; exact (integral_not_infinity sx a Ha Ix)
      | exfalso; destruct Ix as [N _]; congruence | ];
  (destruct y as [sy|sy| |sy my ey];
    [ | exfalso; exact (integral_not_infinity sy b Hb Iy)
      | exfalso; destruct Iy as [N _]; congruence | ]).
  - rewrite (integral_zero _ _ Ix), (integral_zero _ _ Iy).
    destruct sx, sy; split; try discriminate; reflexivity.
  - rewrite (integral_zero _ _ Ix). exact Iy.
  - rewrite (integral_zero _ _ Iy), Z.add_0_r. exact Ix.
  - simpl in Hx, Hy.
    destruct (bounded_inv _ _ Hx) as (Hex & _).
    destruct (bounded_inv _ _ Hy) as (Hey & _).
    destruct Ix as [_ Ox], Iy as [_ Oy]. cbn [ord] in Ox, Oy.
    unfold SF64add, SpecFloat.SFadd.
    apply binary_normalize_exact; [lia | assumption |].
    rewrite !shl_align_value by lia.
    rewrite Z.mul_add_distr_r, Z.mul_add_distr_r, <- Ox, <- Oy.
    rewrite (ord_aligned mx ex (Z.min ex ey)) by lia.
    rewrite (ord_aligned my ey (Z.min ex ey)) by lia.
    destruct sx, sy; unfold cond_Zopp; lia.
Qed.

Lemma whole_normal (s : bool) (m : positive) (e n : Z) :
  Zpos m < 2 ^ 53 -> -1074 <= e -> (-1074 < e -> 2 ^ 52 <= Zpos m) ->
  cond_Zopp s (Zpos m * 2 ^ (e + 1074)) = n * 2 ^ 1074 ->
  Zpos m * 2 ^ (e + 1074) = Z.abs n * 2 ^ 1074 /\ -52 <= e /\ 2 ^ 52 <= Zpos m.
Proof.
  intros Hm He Hnorm Ho.
  assert (T : 0 < 2 ^ 1074) by (apply Z.pow_pos_nonneg; lia).
  assert (K : 0 < 2 ^ (e + 1074)) by (apply Z.pow_pos_nonneg; lia).
  assert (Ha : Zpos m * 2 ^ (e + 1074) = Z.abs n * 2 ^ 1074).
  { destruct s; unfold cond_Zopp in Ho; nia. }
  split; [exact Ha|].
  assert (He' : -53 < e).
  { destruct (Z_lt_le_dec (-53) e) as [|Hle]; [assumption|exfalso].
    assert (2 ^ (e + 1074) <= 2 ^ 1021) by (apply Z.pow_le_mono_r; lia).
    assert (E : 2 ^ 1074 = 2 ^ 53 * 2 ^ 1021)
      by (rewrite <- Z.pow_add_r by lia; reflexivity).
    assert (0 < Z.abs n) by nia.
    assert (P : 0 < 2 ^ 1021) by (apply Z.pow_pos_nonneg; lia).
    rewrite E in Ha. nia. }
  split; [lia | apply Hnorm; lia].
Qed.

(** The product likewise. *)
Lemma SFmul_exact (x y : spec_float) (a b : Z) :
  valid_binary x = true -> valid_binary y = true ->
  integral x a -> integral y b ->
  Z.abs a < 2 ^ 53 -> Z.abs b < 2 ^ 53 -> Z.abs (a * b) < 2 ^ 53 ->
  integral (SF64mul x y) (a * b).
Proof.
  intros Hx Hy Ix Iy Ha Hb Hab.
  destruct x as [sx|sx| |sx mx ex];
    [ | exfalso; exact (integral_not_infinity sx a Ha Ix)
      | exfalso; destruct Ix as [N _]; congruence | ];
  (destruct y as [sy|sy| |sy my ey];
    [ | exfalso; exact (integral_not_infinity sy b Hb Iy)
      | exfalso; destruct Iy as [N _]; congruence | ]).
  - rewrite (integral_zero _ _ Ix). split; [discriminate | reflexivity].
  - rewrite (integral_zero _ _ Ix). split; [discriminate | reflexivity].
  - rewrite (integral_zero _ _ Iy), Z.mul_0_r. split; [discriminate | reflexivity].
  - simpl in Hx, Hy.
    destruct (bounded_inv _ _ Hx) as (Hex & Hmx & Nx).
    destruct (bounded_inv _ _ Hy) as (Hey & Hmy & Ny).
    destruct Ix as [_ Ox], Iy as [_ Oy]. cbn [ord] in Ox, Oy.
    assert (T : 0 < 2 ^ 1074) by (apply Z.pow_pos_nonneg; lia).
    destruct (whole_normal sx mx ex a Hmx Hex Nx Ox) as (Ax & Ex & Mx).
    destruct (whole_normal sy my ey b Hmy Hey Ny Oy) as (Ay & Ey & My).
    set (n := Z.abs a * Z.abs b).
    assert (Hn : 0 < n) by (unfold n; nia).
    destruct n as [|p|p] eqn:En; try lia.
    assert (Hv : Zpos (mx * my) * 2 ^ (ex + ey + 1074) = Zpos p * 2 ^ 1074).
    { apply (Z.mul_reg_r _ _ (2 ^ 1074)); [lia|].
      rewrite <- En. unfold n.
      replace (Z.abs a * Z.abs b * 2 ^ 1074 * 2 ^ 1074)
        with ((Z.abs a * 2 ^ 1074) * (Z.abs b * 2 ^ 1074)) by ring.
      rewrite <- Ax, <- Ay, Pos2Z.inj_mul.
      rewrite <- Z.mul_assoc, <- Z.pow_add_r by lia.
      replace (Zpos mx * 2 ^ (ex + 1074) * (Zpos my * 2 ^ (ey + 1074)))
        with (Zpos mx * Zpos my * (2 ^ (ex + 1074) * 2 ^ (ey + 1074))) by ring.
      rewrite <- Z.pow_add_r by lia. do 2 f_equal. lia. }
    assert (Hd : 104 < Zpos (digits2_pos (mx * my))).
    { apply pow_lt_exponent; [lia|].
      apply Z.le_lt_trans with (Zpos (mx * my)); [|apply digits2_upper].
      rewrite Pos2Z.inj_mul. change (2 ^ 104) with (2 ^ 52 * 2 ^ 52). nia. }
    assert (Hp : Zpos p < 2 ^ 53).
    { rewrite <- En. unfold n. rewrite <- Z.abs_mul. exact Hab. }
    destruct (binary_round_aux_exact (xorb sx sy) (mx * my) (ex + ey) p)
      as (m' & e' & Hr & Hv'); try assumption; try lia.
    { rewrite fexp_eq. lia. }
    unfold SF64mul, SpecFloat.SFmul.
    change (PosDef.Pos.mul mx my) with (mx * my)%positive.
    change (IntDef.Z.add ex ey) with (ex + ey).
    rewrite Hr. split; [discriminate|]. cbn [ord]. rewrite Hv', <- En.
    unfold n.
    assert (Sa : Z.abs a = cond_Zopp sx a)
      by (destruct sx; unfold cond_Zopp in *; nia).
    assert (Sb : Z.abs b = cond_Zopp sy b)
      by (destruct sy; unfold cond_Zopp in *; nia).
    rewrite Sa, Sb. destruct sx, sy; unfold cond_Zopp; simpl xorb; cbv iota; ring.
Qed.

End Binary64Sum.

Module NumberExact.

Import Binary64 Binary64Order Binary64Sum NumberFacts NumberOrder.
Local Open Scope Z_scope.

Lemma unit_pos : 0 < 2 ^ 1074.
Proof. apply Z.pow_pos_nonneg; lia. Qed.

Lemma whole_intro (x : float) :
  isWhole x = true -> integral (Prim2SF x) (wholeOf x).
Proof.
  unfold isWhole, wholeOf, place, integral. pose proof unit_pos as T.
  destruct (Prim2SF x) as [s|s| |s m e] eqn:E; try discriminate;
    intros H; apply Z.eqb_eq in H; (split; [discriminate|]).
  - reflexivity.
  - rewrite Z.mul_comm. apply Z.div_exact; [lia | exact H].
Qed.

Lemma whole_elim (x : float) (n : Z) :
  integral (Prim2SF x) n -> Z.abs n < 2 ^ 53 ->
  isWhole x = true /\ wholeOf x = n.
Proof.
  intros I Hn. pose proof unit_pos as T. unfold isWhole, wholeOf, place.
  destruct (Prim2SF x) as [s|s| |s m e] eqn:E.
  - rewrite (integral_zero _ _ I). split; reflexivity.
  - exfalso. exact (integral_not_infinity s n Hn I).
  - destruct I as [N _]. congruence.
  - destruct I as [_ O]. rewrite O. split.
    + apply Z.eqb_eq. apply Z.mod_mul. lia.
    + apply Z.div_mul. lia.
Qed.

Lemma integral_of_Z (n : Z) :
  Z.abs n < 2 ^ 53 -> integral (Prim2SF (Number.of_Z n)) n.
Proof.
  intros Hn. destruct (of_Z_place n Hn) as [N P].
  split; [apply not_nan_Prim2SF, N | exact P].
Qed.

Lemma integral_add (x y : float) (a b : Z) :
  integral (Prim2SF x) a -> integral (Prim2SF y) b ->
  Z.abs a < 2 ^ 53 -> Z.abs b < 2 ^ 53 -> Z.abs (a + b) < 2 ^ 53 ->
  integral (Prim2SF (x + y)%float) (a + b).
Proof.
  intros Ix Iy Ha Hb Hab. rewrite add_spec.
  apply SFadd_exact; auto using Prim2SF_valid.
Qed.

Lemma integral_mul (x y : float) (a b : Z) :
  integral (Prim2SF x) a -> integral (Prim2SF y) b ->
  Z.abs a < 2 ^ 53 -> Z.abs b < 2 ^ 53 -> Z.abs (a * b) < 2 ^ 53 ->
  integral (Prim2SF (x * y)%float) (a * b).
Proof.
  intros Ix Iy Ha Hb Hab. rewrite mul_spec.
  apply SFmul_exact; auto using Prim2SF_valid.
Qed.

Lemma integral_opp (x : float) (a : Z) :
  integral (Prim2SF x) a -> integral (Prim2SF (- x)%float) (- a).
Proof.
  intros [N O]. rewrite opp_spec.
  destruct (Prim2SF x) as [s|s| |s m e]; try congruence;
    (split; [discriminate|]); cbn [ord SFopp] in *.
  - lia.
  - destruct s; unfold cond_Zopp in *; simpl negb; cbv iota; lia.
  - destruct s; unfold cond_Zopp in *; simpl negb; cbv iota; lia.
Qed.

(** Two doubles at the same place are the same double or two zeros. *)
Lemma ord_inj (x y : spec_float) :
  valid_binary x = true -> valid_binary y = true ->
  x <> S754_nan -> y <> S754_nan -> ord x = ord y ->
  x = y \/ exists s s', x = S754_zero s /\ y = S754_zero s'.
Proof.
  intros Hx Hy Nx Ny H.
  assert (B : 0 < 2 ^ 2098) by (apply Z.pow_pos_nonneg; lia).
  destruct x as [sx|sx| |sx mx ex], y as [sy|sy| |sy my ey];
    try congruence; cbn [ord] in H; simpl in Hx, Hy;
    try pose proof (ord_finite_bounds _ _ Hx) as Bx;
    try pose proof (ord_finite_bounds _ _ Hy) as By.
  - right. eauto.
  - exfalso. destruct sy; unfold cond_Zopp in H; lia.
  - exfalso. destruct sy; unfold cond_Zopp in H; lia.
  - exfalso. destruct sx; unfold cond_Zopp in H; lia.
  - left. destruct sx, sy; unfold cond_Zopp in H; try reflexivity; lia.
  - exfalso. destruct sx, sy; unfold cond_Zopp in H; lia.
  - exfalso. destruct sx; unfold cond_Zopp in H; lia.
  - exfalso. destruct sx, sy; unfold cond_Zopp in H; lia.
  - left.
    assert (Hs : sx = sy) by (destruct sx, sy; unfold cond_Zopp in H; try reflexivity; lia).
    subst sy.
    assert (Hv : Zpos mx * 2 ^ (ex + 1074) = Zpos my * 2 ^ (ey + 1074))
      by (destruct sx; unfold cond_Zopp in H; lia).
    pose proof (finite_compare_ord mx ex my ey Hx Hy) as Hc.
    rewrite Hv, Z.compare_refl in Hc.
    destruct (Z.compare_spec ex ey) as [He|He|He]; try discriminate Hc.
    subst ey. symmetry in Hc.
    change (Pos.compare_cont Eq mx my) with (Pos.compare mx my) in Hc.
    apply Pos.compare_eq in Hc. now subst my.
Qed.

Lemma integral_unique (x y : float) (n : Z) :
  integral (Prim2SF x) n -> integral (Prim2SF y) n ->
  x <> neg_zero -> y <> neg_zero -> x = y.
Proof.
  intros [Nx Ox] [Ny Oy] Zx Zy. apply Prim2SF_inj.
  destruct (ord_inj (Prim2SF x) (Prim2SF y)) as [E | (s & s' & Ex & Ey)];
    auto using Prim2SF_valid; [congruence|].
  rewrite Ex, Ey. destruct s, s'; try reflexivity; exfalso.
  - apply Zx, Prim2SF_inj. rewrite Ex. reflexivity.
  - apply Zy, Prim2SF_inj. rewrite Ey. reflexivity.
Qed.

Lemma of_Z_not_neg_zero (n : Z) :
  Z.abs n < 2 ^ 53 -> Number.of_Z n <> neg_zero.
Proof.
  intros Hn E. destruct (of_Z_place n Hn) as [_ P].
  rewrite E in P. pose proof unit_pos as T.
  change (place neg_zero) with 0 in P.
  assert (n = 0) by nia. subst n. vm_compute in E. discriminate.
Qed.

Lemma integral_is_of_Z (x : float) (n : Z) :
  integral (Prim2SF x) n -> Z.abs n < 2 ^ 53 -> x <> neg_zero ->
  x = Number.of_Z n.
Proof.
  intros I Hn Z. apply (integral_unique x (Number.of_Z n) n);
    auto using integral_of_Z, of_Z_not_neg_zero.
Qed.

(** ** Sums of whole numbers *)

Lemma sumZ_app (l l' : list Z) : sumZ (l ++ l') = sumZ l + sumZ l'.
Proof. induction l; simpl; [reflexivity | rewrite IHl; lia]. Qed.

Lemma sumZ_perm (l l' : list Z) : Permutation l l' -> sumZ l = sumZ l'.
Proof. induction 1; simpl; lia. Qed.

Lemma sumZ_abs_nonneg (l : list float) :
  0 <= sumZ (map (fun c => Z.abs (wholeOf c)) l).
Proof. induction l; simpl; lia. Qed.

Lemma sumZ_abs (l : list float) :
  Z.abs (sumZ (map wholeOf l)) <= sumZ (map (fun c => Z.abs (wholeOf c)) l).
Proof. induction l; simpl; lia. Qed.

Lemma fold_add_integral (cs : list float) (acc : float) (a : Z) :
  integral (Prim2SF acc) a -> forallb isWhole cs = true ->
  Z.abs a + sumZ (map (fun c => Z.abs (wholeOf c)) cs) < 2 ^ 53 ->
  integral (Prim2SF (fold_left PrimFloat.add cs acc))
           (a + sumZ (map wholeOf cs)).
Proof.
  revert acc a. induction cs as [|c cs IH]; intros acc a Ia Hw Hb; simpl in *.
  - now rewrite Z.add_0_r.
  - apply andb_prop in Hw. destruct Hw as [Hc Hw].
    pose proof (sumZ_abs_nonneg cs) as Hnn.
    rewrite Z.add_assoc. apply IH; [|assumption|lia].
    apply integral_add; try assumption; try lia. apply whole_intro, Hc.
Qed.

Lemma fold_add_not_neg_zero (cs : list float) (acc : float) :
  acc <> neg_zero -> fold_left PrimFloat.add cs acc <> neg_zero.
Proof.
  revert acc. induction cs as [|c cs IH]; intros acc Ha; simpl; [assumption|].
  apply IH, add_not_neg_zero, Ha.
Qed.

(** A sum from [0] of whole numbers is the double of their integer sum. *)
Lemma fold_add_whole (cs : list float) :
  forallb isWhole cs = true ->
  sumZ (map (fun c => Z.abs (wholeOf c)) cs) < 2 ^ 53 ->
  fold_left PrimFloat.add cs 0%float = Number.of_Z (sumZ (map wholeOf cs)).
Proof.
  intros Hw Hb. pose proof (sumZ_abs cs) as Ha.
  apply integral_is_of_Z; [|lia|].
  - apply (fold_add_integral cs 0%float 0); [|assumption|simpl; lia].
    split; [discriminate | reflexivity].
  - apply fold_add_not_neg_zero. discriminate.
Qed.

End NumberExact.

(** ** [calculateScore]: whole amounts *)

Section WholeAmounts.

Import NumberFacts NumberOrder NumberExact.
Local Open Scope Z_scope.

Lemma fold_scorePerson_amounts
  (movie : IMovie) (people : list IPerson) (score : float) :
  fold_left (scorePerson movie) people score
  = fold_left PrimFloat.add (amounts movie people) score.
Proof.
  revert score. unfold amounts.
  induction people as [|person people IH]; intros score; simpl; [reflexivity|].
  rewrite fold_left_app, IH, scorePreferences_contributions. reflexivity.
Qed.

Lemma calculateScore_total (movie : IMovie) (people : list IPerson) :
  wholeAmounts movie people = true -> magnitude movie people < 2 ^ 53 ->
  calculateScore movie people = Number.of_Z (total movie people).
Proof.
  intros Hw Hb. unfold calculateScore. rewrite fold_scorePerson_amounts.
  apply fold_add_whole; assumption.
Qed.

Lemma amounts_perm (movie : IMovie) (people people' : list IPerson) :
  Permutation people people' ->
  Permutation (amounts movie people) (amounts movie people').
Proof. apply Permutation_flat_map. Qed.

Lemma forallb_perm {A : Type} (f : A -> bool) (l l' : list A) :
  Permutation l l' -> forallb f l = true -> forallb f l' = true.
Proof.
  intros P H. apply forallb_forall. intros x Hx.
  apply (proj1 (forallb_forall f l) H). apply Permutation_in with l'; [|exact Hx].
  now apply Permutation_sym.
Qed.

Lemma roster_perm (movie : IMovie) (people people' : list IPerson) :
  Permutation people people' ->
  wholeAmounts movie people = true -> magnitude movie people < 2 ^ 53 ->
  calculateScore movie people' = calculateScore movie people.
Proof.
  intros P Hw Hb. pose proof (amounts_perm movie _ _ P) as Pa.
  rewrite (calculateScore_total movie people Hw Hb).
  rewrite (calculateScore_total movie people').
  - unfold total. f_equal. apply sumZ_perm, Permutation_map.
    now apply Permutation_sym.
  - unfold wholeAmounts. apply (forallb_perm _ _ _ Pa). exact Hw.
  - unfold magnitude in *.
    rewrite <- (sumZ_perm _ _ (Permutation_map _ Pa)). exact Hb.
Qed.

(** When the amounts the voters add to the score of a movie are whole
    numbers whose magnitudes sum to less than [2 ^ 53], the score is their
    exact integer sum: no rounding takes place. *)
Theorem calculateScore_whole_amounts (movie : IMovie) (people : list IPerson) :
  wholeAmounts movie people = true -> magnitude movie people < 2 ^ 53 ->
  calculateScore movie people = Number.of_Z (total movie people)
  /\ Z.abs (total movie people) <= magnitude movie people.
Proof.
  intros Hw Hb. split; [now apply calculateScore_total|].
  apply sumZ_abs.
Qed.

Lemma voters_sum (movie : IMovie) (people : list IPerson) (acc : float) (a : Z) :
  integral (Prim2SF acc) a -> acc <> neg_zero ->
  wholeAmounts movie people = true ->
  Z.abs a + magnitude movie people < 2 ^ 53 ->
  fold_left (fun acc person => (acc + calculateScore movie [person])%float)
            people acc
  = Number.of_Z (a + total movie people).
Proof.
  revert acc a. unfold wholeAmounts, magnitude, total, amounts.
  induction people as [|person people IH]; intros acc a Ia Za Hw Hb.
  - simpl in *. rewrite Z.add_0_r. apply integral_is_of_Z; try assumption. lia.
  - cbn [flat_map fold_left] in *.
    rewrite forallb_app in Hw. apply andb_prop in Hw. destruct Hw as [Hp Hw].
    rewrite map_app, sumZ_app in *.
    pose proof (sumZ_abs_nonneg (contributions movie person)) as N1.
    pose proof (sumZ_abs_nonneg (flat_map (contributions movie) people)) as N2.
    pose proof (sumZ_abs (contributions movie person)) as A1.
    assert (Hone : calculateScore movie [person]
                   = Number.of_Z (sumZ (map wholeOf (contributions movie person)))).
    { rewrite calculateScore_total.
      - unfold total, amounts. simpl. now rewrite app_nil_r.
      - unfold wholeAmounts, amounts. simpl. now rewrite app_nil_r.
      - unfold magnitude, amounts. simpl. rewrite app_nil_r. lia. }
    rewrite Hone, Z.add_assoc. apply IH; try assumption; try lia.
    + apply integral_add; try assumption; try lia.
      apply integral_of_Z. lia.
    + apply add_not_neg_zero, Za.
Qed.

(** Under the same condition the score of a roster is the sum of the
    scores its voters give alone. *)
Theorem calculateScore_sum_of_voters (movie : IMovie) (people : list IPerson) :
  wholeAmounts movie people = true -> magnitude movie people < 2 ^ 53 ->
  calculateScore movie people = sumOfVoterScores movie people.
Proof.
  intros Hw Hb. rewrite (calculateScore_total movie people Hw Hb).
  unfold sumOfVoterScores. symmetry.
  apply (voters_sum movie people 0%float 0); try assumption.
  - split; [discriminate | reflexivity].
  - discriminate.
Qed.

(** Under the same condition, for every movie, the ranking does not
    depend on the order of the voters in the roster. *)
Theorem rankMovies_roster_order
  (movies : list IMovie) (people people' : list IPerson) :
  (forall movie, In movie movies ->
     wholeAmounts movie people = true /\ magnitude movie people < 2 ^ 53) ->
  Permutation people people' ->
  rankMovies movies people' = rankMovies movies people.
Proof.
  intros H P. unfold rankMovies. f_equal. apply map_ext_in.
  intros movie Hin. destruct (H movie Hin) as [Hw Hb].
  f_equal. now apply roster_perm.
Qed.

End WholeAmounts.

(** ** Whole weights *)

Section WholeWeights.

Import NumberFacts NumberOrder NumberExact.
Local Open Scope Z_scope.

Variable W : Z.
Variable L : nat.
Hypothesis W_pos : 1 <= W.
Hypothesis W_small : (7 + Z.of_nat L) * W < 2 ^ 53.

Lemma within_nil (B : Z) : 0 <= B -> within B [].
Proof. intros H. split; [reflexivity | exact H]. Qed.

Lemma within_app (B B' : Z) (cs cs' : list float) :
  within B cs -> within B' cs' -> within (B + B') (cs ++ cs').
Proof.
  intros [H1 H2] [H1' H2']. split.
  - rewrite forallb_app, H1, H1'. reflexivity.
  - rewrite map_app, sumZ_app. lia.
Qed.

Lemma within_one (B : Z) (c : float) :
  isWhole c = true -> Z.abs (wholeOf c) <= B -> within B [c].
Proof.
  intros H1 H2. split; simpl; [now rewrite H1 | lia].
Qed.

Lemma within_guarded {T : Type} (o : option (Pref.t T)) (b : Pref.t T -> bool) :
  Forall (boundedWeight W) (weightOption o) ->
  within W match o with
           | Some p => if b p then [Pref.weight p] else []
           | None => []
           end.
Proof.
  intros H. destruct o as [p|]; [|apply within_nil; lia].
  destruct (b p); [|apply within_nil; lia].
  inversion H as [|w ws [H1 H2] _]; subst. now apply within_one.
Qed.

Lemma within_opposite {T : Type} (o : option (Pref.t T)) (b : Pref.t T -> bool) :
  Forall (boundedWeight W) (weightOption o) ->
  within W match o with
           | Some p => if b p then [(- Pref.weight p)%float] else []
           | None => []
           end.
Proof.
  intros H. destruct o as [p|]; [|apply within_nil; lia].
  destruct (b p); [|apply within_nil; lia].
  inversion H as [|w ws [H1 H2] _]; subst.
  destruct (whole_elim (- Pref.weight p)%float (- wholeOf (Pref.weight p)))
    as [H3 H4]; [apply integral_opp, whole_intro, H1 | lia |].
  apply within_one; [exact H3 | rewrite H4; lia].
Qed.

Lemma within_counted (o : option (Pref.t (list string)))
  (matching : list string -> list string) :
  Forall (boundedWeight W) (weightOption o) ->
  (forall p, o = Some p ->
             (List.length (matching (Pref.value p)) <= L)%nat) ->
  within (Z.of_nat L * W)
         match o with
         | Some p => [(length_number (matching (Pref.value p))
                       * Pref.weight p)%float]
         | None => []
         end.
Proof.
  intros H Hlen. destruct o as [p|]; [|apply within_nil; lia].
  specialize (Hlen p eq_refl).
  inversion H as [|w ws [H1 H2] _]; subst.
  set (k := Z.of_nat (List.length (matching (Pref.value p)))) in *.
  assert (Hk : 0 <= k <= Z.of_nat L) by (unfold k; lia).
  assert (Hkw : Z.abs (k * wholeOf (Pref.weight p)) <= Z.of_nat L * W)
    by (rewrite Z.abs_mul; nia).
  destruct (whole_elim (length_number (matching (Pref.value p))
                        * Pref.weight p)%float
                       (k * wholeOf (Pref.weight p))) as [H3 H4].
  - apply integral_mul; try nia.
    + apply integral_of_Z. nia.
    + apply whole_intro, H1.
  - nia.
  - apply within_one; [exact H3 | rewrite H4; exact Hkw].
Qed.

Lemma contributions_within (movie : IMovie) (person : IPerson) :
  wholeWeights W L person ->
  within ((7 + Z.of_nat L) * W) (contributions movie person).
Proof.
  intros (Hact & Hw & Hlen). unfold weights in Hw.
  repeat (apply Forall_app in Hw; destruct Hw as [? Hw]).
  unfold contributions. rewrite Hact.
  replace ((7 + Z.of_nat L) * W)
    with (W + (W + (W + (W + (W + (W + (0 + (Z.of_nat L * W + W))))))))
    by ring.
  repeat apply within_app.
  - now apply (within_guarded (afterYear (preferences person))
                 (fun p => Number.ge (parseInt (year movie) None) (Pref.value p))).
  - now apply (within_guarded (beforeYear (preferences person))
                 (fun p => Number.lt (parseInt (year movie) None) (Pref.value p))).
  - now apply (within_guarded (maximumAgeRating (preferences person))
                 (fun p => Str.le (rated movie) (Pref.value p))).
  - now apply (within_guarded (shorterThan (preferences person))
                 (fun p => Number.lt (runtimeToMinutes (runtime movie))
                                     (runtimeToMinutes (Pref.value p)))).
  - now apply (within_guarded (favoriteGenre (preferences person))
                 (fun p => Str.includes (Str.toLowerCase (genre movie))
                                        (Pref.value p))).
  - now apply (within_opposite (leastFavoriteDirector (preferences person))
                 (fun p => String.eqb (director movie) (Pref.value p))).
  - apply within_nil. lia.
  - apply (within_counted (favoritePlotElements (preferences person))
             (matchingElements movie)); [assumption|].
    intros p Hp. rewrite Hp in Hlen. unfold matchingElements.
    eapply Nat.le_trans; [apply filter_length_le | exact Hlen].
  - now apply (within_guarded (minimumRottenTomatoesScore (preferences person))
                 (fun p => Number.ge (getRottenTomatoesScore movie) (Pref.value p))).
Qed.

(** Voters whose weights are whole numbers of magnitude at most [W],
    with no favourite actors and at most [L] favourite plot elements each,
    add whole amounts only, of magnitude at most [(7 + L) * W] a voter,
    whatever the movie. *)
Theorem whole_weights_whole_amounts (movie : IMovie) (people : list IPerson) :
  Forall (wholeWeights W L) people ->
  wholeAmounts movie people = true
  /\ magnitude movie people
     <= Z.of_nat (List.length people) * ((7 + Z.of_nat L) * W).
Proof.
  unfold wholeAmounts, magnitude, amounts.
  induction 1 as [|person people Hp _ [IH1 IH2]].
  - split; [reflexivity | simpl; lia].
  - destruct (contributions_within movie person Hp) as [H1 H2].
    cbn [flat_map]. rewrite forallb_app, map_app, sumZ_app, H1, IH1.
    split; [reflexivity|]. cbn [List.length]. lia.
Qed.

End WholeWeights.

(** ** [runtimeToMinutes]: hours and minutes *)

Section RuntimeMinutes.

Import NumberFacts NumberOrder NumberExact.
Local Open Scope Z_scope.

Lemma includes_h_app (s t : string) :
  Str.includes (s ++ t) "h" = Str.includes s "h" || Str.includes t "h".
Proof.
  induction s as [|c s IH]; simpl.
  - destruct t; reflexivity.
  - rewrite IH. destruct (Ascii.eqb c "h"); reflexivity.
Qed.

Lemma digits_no_h (s : string) :
  all_digits s = true -> Str.includes s "h" = false.
Proof.
  induction s as [|c s IH]; intros H; simpl in *; [reflexivity|].
  apply andb_prop in H. destruct H as [Hc Hs]. rewrite (IH Hs).
  destruct c as [[] [] [] [] [] [] [] []]; try discriminate Hc; reflexivity.
Qed.

Lemma spaces_no_h (s : string) :
  all_spaces s = true -> Str.includes s "h" = false.
Proof.
  induction s as [|c s IH]; intros H; simpl in *; [reflexivity|].
  apply andb_prop in H. destruct H as [Hc Hs]. rewrite (IH Hs).
  destruct c as [[] [] [] [] [] [] [] []]; try discriminate Hc; reflexivity.
Qed.

Lemma trimStart_spaces (ws s : string) :
  all_spaces ws = true -> Str.trimStart (ws ++ s) = Str.trimStart s.
Proof.
  induction ws as [|c ws IH]; intros H; simpl in *; [reflexivity|].
  apply andb_prop in H. destruct H as [Hc Hs]. rewrite Hc. now apply IH.
Qed.

Lemma parseInt_spaces (ws s : string) (radix : option Z) :
  all_spaces ws = true -> parseInt (ws ++ s) radix = parseInt s radix.
Proof.
  intros H. unfold parseInt. now rewrite trimStart_spaces.
Qed.

Lemma numeral_value_nonneg (s : string) :
  all_digits s = true -> 0 <= numeral_value s.
Proof.
  intros H. apply (ParseFacts.numeral_value_from_nonneg s 0 H). lia.
Qed.

Lemma integral_not_neg_zero (x : float) (n : Z) :
  integral (Prim2SF x) n -> n <> 0 -> x <> neg_zero.
Proof.
  intros [_ O] Hn ->. pose proof unit_pos as T.
  change (ord (Prim2SF neg_zero)) with 0 in O. nia.
Qed.

(** [x || 0] is [x] for the double of a natural number. *)
Lemma or_else_of_Z (n : Z) :
  0 <= n < 2 ^ 53 -> Number.or_else (Number.of_Z n) 0 = Number.of_Z n.
Proof.
  intros Hn. destruct (Z.eq_dec n 0) as [->|Hne]; [reflexivity|].
  destruct (of_Z_place n) as [N P]; [lia|].
  unfold Number.or_else, Number.truthy, is_nan, is_zero.
  rewrite !eqb_place by (try assumption; discriminate).
  rewrite Z.eqb_refl, P. change (place zero) with 0.
  pose proof unit_pos as T.
  destruct (Z.eqb_spec (n * 2 ^ 1074) 0); [nia | reflexivity].
Qed.

Lemma minutes_exact (h m : Z) :
  0 <= h -> 0 <= m -> 60 * h + m < 2 ^ 53 ->
  (Number.of_Z h * 60 + Number.of_Z m)%float = Number.of_Z (60 * h + m).
Proof.
  intros Hh Hm Hb.
  assert (I60 : integral (Prim2SF 60%float) 60)
    by (split; [discriminate | reflexivity]).
  assert (Ih : integral (Prim2SF (Number.of_Z h * 60)%float) (h * 60)).
  { apply integral_mul; try lia; try assumption. apply integral_of_Z. lia. }
  replace (60 * h + m) with (h * 60 + m) by lia.
  apply integral_is_of_Z; [|lia|].
  - apply integral_add; try assumption; try lia. apply integral_of_Z. lia.
  - apply add_not_neg_zero.
    destruct (Z.eq_dec h 0) as [->|Hne]; [vm_compute; discriminate|].
    apply (integral_not_neg_zero _ _ Ih). lia.
Qed.

Lemma runtimeToMinutes_minutesOf (H ws M rest : string) :
  wellWritten H ws M rest -> minutesOf H M < 2 ^ 53 ->
  runtimeToMinutes (hoursMinutes H ws M rest) = Number.of_Z (minutesOf H M).
Proof.
  intros (HH & DH & Sw & HM & DM & Er & Nr) Hb. unfold minutesOf in *.
  pose proof (numeral_value_nonneg H DH) as PH.
  pose proof (numeral_value_nonneg M DM) as PM.
  unfold runtimeToMinutes, hoursMinutes, Str.split.
  rewrite (StrFacts.split_from_one_h H (ws ++ M ++ rest) EmptyString).
  - cbn [map nth_error Number.of_undefined append].
    rewrite parseInt_spaces by assumption.
    rewrite <- (StrFacts.append_nil_r H) at 1.
    rewrite !ParseFacts.parseInt_numeral by (assumption || reflexivity).
    rewrite !or_else_of_Z by lia.
    apply minutes_exact; lia.
  - now apply digits_no_h.
  - rewrite !includes_h_app, (spaces_no_h ws Sw), (digits_no_h M DM), Nr.
    reflexivity.
Qed.

(** A runtime written [xh ymin] is [60 x + y] minutes, exactly; what
    follows the numeral of the minutes is not read.  A runtime with the
    hours only, [xh] followed by text that begins with no numeral and
    holds no [h], is [60 x] minutes. *)
Theorem runtimeToMinutes_hours_minutes :
  (forall H ws M rest : string,
      wellWritten H ws M rest -> minutesOf H M < 2 ^ 53 ->
      runtimeToMinutes (hoursMinutes H ws M rest)
      = Number.of_Z (minutesOf H M)) /\
  (forall H tail : string,
      H <> EmptyString -> all_digits H = true ->
      starts_with_numeral tail = false -> Str.includes tail "h" = false ->
      60 * numeral_value H < 2 ^ 53 ->
      runtimeToMinutes (H ++ "h" ++ tail)
      = Number.of_Z (60 * numeral_value H)).
Proof.
  split; [exact runtimeToMinutes_minutesOf|].
  intros H tail HH DH Nt Ht Hb.
  pose proof (numeral_value_nonneg H DH) as PH.
  unfold runtimeToMinutes, Str.split.
  rewrite (StrFacts.split_from_one_h H tail EmptyString (digits_no_h H DH) Ht).
  cbn [map nth_error Number.of_undefined append].
  rewrite (StrFacts.parseInt_no_numeral tail Nt).
  assert (Hp : parseInt H (Some 10) = Number.of_Z (numeral_value H)).
  { rewrite <- (StrFacts.append_nil_r H) at 1.
    apply ParseFacts.parseInt_numeral; (assumption || reflexivity). }
  rewrite Hp, or_else_of_Z by lia.
  change (Number.or_else nan 0) with (Number.of_Z 0).
  rewrite minutes_exact by lia. f_equal. lia.
Qed.

(** With the movie's runtime and the voter's limit both written
    [xh ymin], [shorterThan] adds its weight exactly when the movie has
    fewer minutes than the limit: a movie as long as the limit gets
    nothing. *)
Theorem shorterThan_fewer_minutes
  (movie : IMovie) (prefs : Preferences) (p : Pref.t string) (score : float)
  (H ws M rest H' ws' M' rest' : string) :
  runtime movie = hoursMinutes H ws M rest -> wellWritten H ws M rest ->
  shorterThan prefs = Some p ->
  Pref.value p = hoursMinutes H' ws' M' rest' -> wellWritten H' ws' M' rest' ->
  minutesOf H M < 2 ^ 53 -> minutesOf H' M' < 2 ^ 53 ->
  scoreShorterThan movie prefs score
  = if minutesOf H M <? minutesOf H' M'
    then (score + Pref.weight p)%float else score.
Proof.
  intros Hr Hw Hp Hv Hw' Hb Hb'. unfold scoreShorterThan.
  rewrite Hp, Hr, Hv, !runtimeToMinutes_minutesOf by assumption.
  assert (0 <= minutesOf H M /\ 0 <= minutesOf H' M') as [P P'].
  { destruct Hw as (_ & DH & _ & _ & DM & _).
    destruct Hw' as (_ & DH' & _ & _ & DM' & _).
    pose proof (numeral_value_nonneg H DH). pose proof (numeral_value_nonneg M DM).
    pose proof (numeral_value_nonneg H' DH').
    pose proof (numeral_value_nonneg M' DM'). unfold minutesOf. lia. }
  rewrite lt_of_Z by lia. reflexivity.
Qed.

End RuntimeMinutes.

(** ** Instances *)

Section Instances.

Import Examples.

Lemma rankMovies_best_first_witness :
  Number.ge 10%float (-4)%float = true.
Proof.
  apply (rankMovies_best_first critics [recent; disliked; plain]
           ltac:(repeat constructor; vm_compute; discriminate)
           0 2 {| id := "tt0000010"; score := 10 |}
           {| id := "tt0000011"; score := (-4) |});
    [lia | reflexivity | reflexivity].
Defined.

Lemma rankMovies_stable_witness :
  filter (fun r => PrimFloat.eqb (score r) 0%float)
         (rankMovies [plain; recent; directedBy "tt0000013" "1985" "Jane Doe"]
            critics)
  = [ {| id := "tt0000012"; score := 0 |};
      {| id := "tt0000013"; score := 0 |} ].
Proof.
  apply (rankMovies_stable critics
           [plain; recent; directedBy "tt0000013" "1985" "Jane Doe"] 0%float).
  repeat constructor; vm_compute; discriminate.
Defined.

Lemma rankMovies_order_independent_witness :
  rankMovies [recent; disliked; plain] critics
  = rankMovies [plain; recent; disliked] critics.
Proof.
  apply rankMovies_order_independent.
  - apply Permutation_sym.
    apply (Permutation_cons_app [recent; disliked] [] plain).
    apply Permutation_refl.
  - repeat constructor; vm_compute; discriminate.
  - repeat constructor.
Defined.

Lemma year_without_numeral_witness :
  scoreAfterYear (movieOf "tt0000020" "N/A" "") (afterYearOnly (-1) 7) 0%float
  = 0%float /\
  scoreBeforeYear (movieOf "tt0000020" "N/A" "") (afterYearOnly (-1) 7) 0%float
  = 0%float.
Proof.
  apply (year_without_numeral (movieOf "tt0000020" "N/A" "")). reflexivity.
Defined.

Lemma year_with_numeral_witness :
  scoreAfterYear (movieOf "tt0000021" "2011-2019" "")
    (afterYearOnly 2011 7) 0%float
  = 7%float.
Proof.
  pose proof (year_with_numeral (movieOf "tt0000021" "2011-2019" "")
                (afterYearOnly 2011 7) "2011" "-2019" 2011 0%float
                eq_refl ltac:(discriminate) eq_refl eq_refl eq_refl eq_refl
                eq_refl eq_refl) as [Hafter _].
  exact (Hafter (Pref.make 2011%float 7%float) eq_refl eq_refl).
Defined.

Lemma getRottenTomatoesScore_percent_witness :
  getRottenTomatoesScore
    (ratingsMovie [Rating.make "Metacritic" "80/100";
                   Rating.make "Rotten Tomatoes" "250%";
                   Rating.make "Rotten Tomatoes" "10%"])
  = 250%float.
Proof.
  apply (getRottenTomatoesScore_percent
           (ratingsMovie [Rating.make "Metacritic" "80/100";
                          Rating.make "Rotten Tomatoes" "250%";
                          Rating.make "Rotten Tomatoes" "10%"])
           [Rating.make "Metacritic" "80/100"]
           [Rating.make "Rotten Tomatoes" "10%"] "250" "");
    try reflexivity; try discriminate.
  intros r [<- | []]. discriminate.
Defined.

Lemma runtimeToMinutes_second_mark_witness :
  runtimeToMinutes "1h 30h 45" = runtimeToMinutes "1h 30".
Proof.
  apply (runtimeToMinutes_second_mark "1" " 30" " 45"); reflexivity.
Defined.

Lemma shorterThan_without_mark_witness :
  scoreShorterThan
    {| imdbID := ""; title := ""; year := ""; genre := ""; director := "";
       actors := ""; plot := ""; rated := ""; runtime := "142 min";
       ratings := [] |}
    (addCriterion (ShorterThan (Pref.make "3h" 5%float)) noPreferences)
    0%float
  = 0%float.
Proof.
  apply shorterThan_without_mark. left. reflexivity.
Defined.

Lemma favoritePlotElements_case_insensitive_witness :
  scoreFavoritePlotElements shawshank
    (addCriterion (FavoritePlotElements (Pref.make ["BANKER"; "Prison"] 2%float))
       noPreferences) 0%float
  = scoreFavoritePlotElements (movieOf "" "" "A Banker Is Sentenced To Life In PRISON")
      (addCriterion (FavoritePlotElements (Pref.make ["banker"; "prison"] 2%float))
         noPreferences) 0%float.
Proof.
  apply (favoritePlotElements_case_insensitive _ _ _ _
           (Pref.make ["BANKER"; "Prison"] 2%float)
           (Pref.make ["banker"; "prison"] 2%float));
    try reflexivity.
  repeat constructor.
Defined.

Lemma voter_without_preferences_witness :
  calculateScore shawshank [alice; nobody; bob]
  = calculateScore shawshank [alice; bob].
Proof.
  apply (voter_without_preferences shawshank [alice] [bob] nobody).
  reflexivity.
Defined.

Lemma unmatched_favoriteActors_not_finite_witness :
  notFinite (calculateScore shawshank [alice; hanksFan; bob]).
Proof.
  apply (unmatched_favoriteActors_not_finite shawshank [alice] [bob] hanksFan
           (Pref.make ["Tom Hanks"] 1%float)); reflexivity.
Defined.

Lemma ranking_rearranges_witness :
  Permutation
    (ranking [recent; disliked; plain]
       (IPrompt.make ["tt0000010"; "tt0000011"; "tt0000012"] critics))
    ["tt0000010"; "tt0000011"; "tt0000012"].
Proof.
  apply (ranking_rearranges [recent; disliked; plain]
           (IPrompt.make ["tt0000010"; "tt0000011"; "tt0000012"] critics)).
  reflexivity.
Defined.

Lemma zero_weight_unchanged_witness :
  calculateScore shawshank
    [alice; withCriterion (ShorterThan (Pref.make "3h" 0%float)) bob]
  = calculateScore shawshank [alice; bob].
Proof.
  apply (zero_weight_unchanged shawshank [alice] [] bob
           (ShorterThan (Pref.make "3h" 0%float)));
    [reflexivity | reflexivity | discriminate | discriminate].
Defined.

Lemma calculateScore_whole_amounts_witness :
  calculateScore disliked critics = Number.of_Z (-4)
  /\ (Z.abs (total disliked critics) <= magnitude disliked critics)%Z.
Proof.
  apply (calculateScore_whole_amounts disliked critics);
    [reflexivity | vm_compute; reflexivity].
Defined.

Lemma calculateScore_sum_of_voters_witness :
  calculateScore shawshank [voter modernAndAcclaimed; voter modernAndAcclaimed]
  = sumOfVoterScores shawshank
      [voter modernAndAcclaimed; voter modernAndAcclaimed].
Proof.
  apply calculateScore_sum_of_voters; [reflexivity | vm_compute; reflexivity].
Defined.

Lemma rankMovies_roster_order_witness :
  rankMovies [recent; disliked; plain] (rev critics)
  = rankMovies [recent; disliked; plain] critics.
Proof.
  apply rankMovies_roster_order.
  - intros movie [<- | [<- | [<- | []]]]; split;
      solve [reflexivity | vm_compute; reflexivity].
  - apply Permutation_rev.
Defined.

Lemma whole_weights_whole_amounts_witness :
  wholeAmounts disliked critics = true
  /\ (magnitude disliked critics <= 2 * ((7 + 0) * 10))%Z.
Proof.
  apply (whole_weights_whole_amounts 10 0 ltac:(lia)
           ltac:(vm_compute; reflexivity) disliked critics).
  repeat constructor; vm_compute; discriminate.
Defined.

Lemma runtimeToMinutes_hours_minutes_witness :
  runtimeToMinutes "2h 22min" = Number.of_Z 142 /\
  runtimeToMinutes "3h" = Number.of_Z 180.
Proof.
  destruct runtimeToMinutes_hours_minutes as [Hboth Hhours]. split.
  - apply (Hboth "2" " " "22" "min").
    + repeat split; try discriminate; reflexivity.
    + vm_compute; reflexivity.
  - apply (Hhours "3" ""); try reflexivity; discriminate.
Defined.

Lemma shorterThan_fewer_minutes_witness :
  scoreShorterThan shawshank
    (addCriterion (ShorterThan (Pref.make "2h 22min" 5%float)) noPreferences)
    0%float
  = 0%float.
Proof.
  apply (shorterThan_fewer_minutes shawshank
           (addCriterion (ShorterThan (Pref.make "2h 22min" 5%float))
              noPreferences)
           (Pref.make "2h 22min" 5%float) 0%float
           "2" " " "22" "min" "2" " " "22" "min");
    try reflexivity;
    try (repeat split; try discriminate; reflexivity).
Defined.

End Instances.
